(** * The reference function suite of [test/original.c]

    A shallow embedding of the arithmetic, looping, recursive and
    pointer-manipulating functions of [test/original.c], together with the
    properties its specification states about them.

    - [int] is a 32-bit two's-complement integer: a [Z] with the wrap-around
      written out ([wrap]).
    - Memory is a finite map from blocks to lists of cells, a pointer is a
      block and an offset counted in elements, and every access outside the
      extent of the block is an error ([None]).
    - [for] loops are defined by well-founded recursion on the distance to
      the bound; the [while] loop of [string_length], which need not
      terminate, takes fuel. *)

From Equations Require Import Equations.
From stdpp Require Import gmap list sorting.
From Stdlib Require Import ZArith Lia.

Local Open Scope Z_scope.

(** * Definitions *)

(** ** Fixed-width signed integers *)

Module Int.

Definition INT_MIN : Z := -2147483648.
Definition INT_MAX : Z := 2147483647.
Definition modulus : Z := 4294967296.

(** The value of type [int] that is congruent to [z] modulo [2^32]. *)
Definition wrap (z : Z) : Z := (z - INT_MIN) mod modulus + INT_MIN.

Definition is_int (z : Z) : Prop := INT_MIN ≤ z ≤ INT_MAX.

Definition add (a b : Z) : Z := wrap (a + b).
Definition sub (a b : Z) : Z := wrap (a - b).
Definition mul (a b : Z) : Z := wrap (a * b).

End Int.

#[global] Opaque Int.wrap.

(** ** Arithmetic primitives *)

(** [int add_numbers(int a, int b) { return a + b; }] *)
Definition add_numbers (a b : Z) : Z := Int.add a b.

(** [int square(int x) { int result = x * x; return result; }] *)
Definition square (x : Z) : Z :=
  let result := Int.mul x x in
  result.

(** [[
int max_of_three(int a, int b, int c) {
    int max = a;
    if (b > max) max = b;
    if (c > max) max = c;
    return max;
}
]] *)
Definition max_of_three (a b c : Z) : Z :=
  let max := a in
  let max := if decide (b > max) then b else max in
  let max := if decide (c > max) then c else max in
  max.

(** ** Memory *)

Definition block : Type := nat.

(** A pointer: the block it points into and an offset, in elements. *)
Definition ptr : Type := block * Z.

Definition ptr_add (p : ptr) (k : Z) : ptr := (p.1, p.2 + k).

Definition load (m : gmap block (list Z)) (p : ptr) : option Z :=
  cells ← m !! p.1;
  if decide (0 ≤ p.2) then cells !! Z.to_nat p.2 else None.

Definition store (m : gmap block (list Z)) (p : ptr) (v : Z)
  : option (gmap block (list Z)) :=
  cells ← m !! p.1;
  if decide (0 ≤ p.2 < Z.of_nat (length cells))
  then Some (<[p.1 := <[Z.to_nat p.2 := v]> cells]> m)
  else None.

(** ** Counted loops *)

Section for_loop.
Context {St : Type}.

(** [for (int i = lo; i < hi; i++) body], the loop state threaded through
    [body]; an error in [body] ends the loop.  The bound [hi] is an [int],
    so [i++] cannot overflow while [i < hi] ([incr_below_bound]). *)
Equations? for_loop (body : Z → St → option St) (i hi : Z) (s : St)
  : option St by wf (Z.to_nat (hi - i)) lt :=
  for_loop body i hi s with decide (i < hi) => {
    | left _ with body i s => {
        | Some s' => for_loop body (i + 1) hi s'
        | None => None }
    | right _ => Some s }.
Proof. lia. Qed.

End for_loop.

(** ** Sequence-processing primitives *)

(** [[
int sum_array(int *arr, int len) {
    int total = 0;
    for (int i = 0; i < len; i++) {
        total += arr[i];
    }
    return total;
}
]] *)
Definition sum_array (m : gmap block (list Z)) (arr : ptr) (len : Z) : option Z :=
  let total := 0 in
  for_loop (λ i total,
      x ← load m (ptr_add arr i);
      Some (Int.add total x))
    0 len total.

(** The result of a loop that may not terminate. *)
Inductive outcome (A : Type) : Type :=
  | Done (a : A)
  | Fault
  | OutOfFuel.
Arguments Done {A} a.
Arguments Fault {A}.
Arguments OutOfFuel {A}.

(** [while (s[len] != '\0') { len++; }] *)
Fixpoint string_length_loop (fuel : nat) (m : gmap block (list Z))
    (s : ptr) (len : Z) : outcome Z :=
  match fuel with
  | O => OutOfFuel
  | S fuel' =>
      match load m (ptr_add s len) with
      | None => Fault
      | Some c =>
          if decide (c ≠ 0)
          then string_length_loop fuel' m s (Int.add len 1)
          else Done len
      end
  end.

(** [[
int string_length(const char *s) {
    int len = 0;
    while (s[len] != '\0') {
        len++;
    }
    return len;
}
]] *)
Definition string_length (fuel : nat) (m : gmap block (list Z)) (s : ptr)
  : outcome Z :=
  let len := 0 in
  string_length_loop fuel m s len.

(** [matrix[i][j]] for [int matrix[3][3]]: row [i] starts [3 * i] elements
    after [matrix], and [j] indexes that row, whose extent is 3. *)
Definition load_matrix (m : gmap block (list Z)) (matrix : ptr) (i j : Z)
  : option Z :=
  if decide (0 ≤ j < 3) then load m (ptr_add (ptr_add matrix (3 * i)) j)
  else None.

(** [[
int matrix_sum(int matrix[3][3]) {
    int sum = 0;
    for (int i = 0; i < 3; i++) {
        for (int j = 0; j < 3; j++) {
            sum += matrix[i][j];
        }
    }
    return sum;
}
]] *)
Definition matrix_sum (m : gmap block (list Z)) (matrix : ptr) : option Z :=
  let sum := 0 in
  for_loop (λ i sum,
      for_loop (λ j sum,
          x ← load_matrix m matrix i j;
          Some (Int.add sum x))
        0 3 sum)
    0 3 sum.

(** ** Recursive primitive *)

(** [[
int fibonacci(int n) {
    if (n <= 1) return n;
    return fibonacci(n - 1) + fibonacci(n - 2);
}
]] *)
Equations fibonacci (n : Z) : Z by wf (Z.to_nat n) lt :=
  fibonacci n with decide (n ≤ 1) => {
    | left _ => n
    | right _ => Int.add (fibonacci (Int.sub n 1)) (fibonacci (Int.sub n 2)) }.
Next Obligation.
  intros n Hn _. unfold Int.sub.
  with_strategy transparent [Int.wrap] (unfold Int.wrap).
  unfold Int.INT_MIN, Int.modulus.
  pose proof (Z.mod_le (n - 1 - -2147483648) 4294967296). lia.
Qed.
Next Obligation.
  intros n Hn _. unfold Int.sub.
  with_strategy transparent [Int.wrap] (unfold Int.wrap).
  unfold Int.INT_MIN, Int.modulus.
  pose proof (Z.mod_le (n - 2 - -2147483648) 4294967296). lia.
Qed.

(** ** Mutation primitives *)

(** [[
void swap(int *a, int *b) {
    int temp = *a;
    *a = *b;
    *b = temp;
}
]]
    The function returns nothing: its result is the memory it leaves. *)
Definition swap (m : gmap block (list Z)) (a b : ptr)
  : option (gmap block (list Z)) :=
  temp ← load m a;
  vb ← load m b;
  m1 ← store m a vb;
  store m1 b temp.

(** [[
void bubble_sort(int *arr, int n) {
    for (int i = 0; i < n - 1; i++) {
        for (int j = 0; j < n - i - 1; j++) {
            if (arr[j] > arr[j + 1]) {
                swap(&arr[j], &arr[j + 1]);
            }
        }
    }
}
]] *)
Definition bubble_sort (m : gmap block (list Z)) (arr : ptr) (n : Z)
  : option (gmap block (list Z)) :=
  for_loop (λ i m,
      for_loop (λ j m,
          x ← load m (ptr_add arr j);
          y ← load m (ptr_add arr (Int.add j 1));
          if decide (x > y)
          then swap m (ptr_add arr j) (ptr_add arr (Int.add j 1))
          else Some m)
        0 (Int.sub (Int.sub n i) 1) m)
    0 (Int.sub n 1) m.

(** ** Mathematical counterparts *)

(** The exact sum of a sequence. *)
Definition sumZ (l : list Z) : Z := foldr Z.add 0 l.

(** The exact Fibonacci numbers [(F k, F (k + 1))]. *)
Fixpoint fib_pair (k : nat) : Z * Z :=
  match k with
  | O => (0, 1)
  | S k' => let p := fib_pair k' in (p.2, p.1 + p.2)
  end.

(** * Properties *)

(** ** Fixed-width signed integers *)

Lemma wrap_unfold z :
  Int.wrap z = (z - Int.INT_MIN) mod Int.modulus + Int.INT_MIN.
Proof. with_strategy transparent [Int.wrap] (unfold Int.wrap). reflexivity. Qed.

Lemma wrap_is_int z : Int.is_int (Int.wrap z).
Proof.
  rewrite wrap_unfold. unfold Int.is_int, Int.INT_MIN, Int.INT_MAX, Int.modulus.
  pose proof (Z.mod_pos_bound (z - -2147483648) 4294967296). lia.
Qed.

Lemma wrap_id z : Int.is_int z → Int.wrap z = z.
Proof.
  rewrite wrap_unfold. unfold Int.is_int, Int.INT_MIN, Int.INT_MAX, Int.modulus.
  intros Hz. rewrite Z.mod_small by lia. lia.
Qed.

Lemma wrap_congr z : (Int.wrap z - z) mod Int.modulus = 0.
Proof.
  rewrite wrap_unfold. unfold Int.INT_MIN, Int.modulus.
  rewrite (Z.mod_eq (z - -2147483648) 4294967296) by lia.
  replace (z - -2147483648 - 4294967296 * ((z - -2147483648) / 4294967296)
           + -2147483648 - z)
    with ((- ((z - -2147483648) / 4294967296)) * 4294967296) by lia.
  apply Z.mod_mul. lia.
Qed.

Lemma wrap_add_l a b : Int.wrap (Int.wrap a + b) = Int.wrap (a + b).
Proof.
  rewrite !wrap_unfold. unfold Int.INT_MIN, Int.modulus.
  replace ((a - -2147483648) mod 4294967296 + -2147483648 + b - -2147483648)
    with ((a - -2147483648) mod 4294967296 + b) by lia.
  replace (a + b - -2147483648) with ((a - -2147483648) + b) by lia.
  rewrite Zplus_mod_idemp_l. reflexivity.
Qed.

(** [wrap z] is the only [int] congruent to [z]. *)
Lemma wrap_unique r z :
  Int.is_int r → (r - z) mod Int.modulus = 0 → r = Int.wrap z.
Proof.
  intros Hr Hrz.
  pose proof (wrap_is_int z) as Hw. pose proof (wrap_congr z) as Hwz.
  apply Z.mod_divide in Hrz; [| unfold Int.modulus; lia].
  apply Z.mod_divide in Hwz; [| unfold Int.modulus; lia].
  destruct Hrz as [c Hc]. destruct Hwz as [d Hd].
  unfold Int.is_int, Int.INT_MIN, Int.INT_MAX, Int.modulus in *. lia.
Qed.

Lemma wrap_0 : Int.wrap 0 = 0.
Proof. vm_compute. reflexivity. Qed.

Lemma wrap_max_succ : Int.wrap (Int.INT_MAX + 1) = Int.INT_MIN.
Proof. vm_compute. reflexivity. Qed.

Lemma is_int_literal z :
  Int.INT_MIN ≤ z → z ≤ Int.INT_MAX → Int.is_int z.
Proof. unfold Int.is_int. lia. Qed.

(** A loop counter below an [int] bound is incremented without overflow, so
    [for_loop] counts in [Z]. *)
Lemma incr_below_bound i hi :
  Int.is_int i → Int.is_int hi → i < hi → Int.add i 1 = i + 1.
Proof.
  unfold Int.add. intros Hi Hhi Hlt. apply wrap_id.
  unfold Int.is_int in *. lia.
Qed.

(** ** Counted loops *)

Section for_loop_facts.
Context {St : Type}.
Implicit Types (body : Z → St → option St).

Lemma for_loop_done body i hi s : hi ≤ i → for_loop body i hi s = Some s.
Proof.
  intros Hle. rewrite for_loop_equation_1.
  destruct (decide (i < hi)); [lia | reflexivity].
Qed.

Lemma for_loop_step body i hi s :
  i < hi → for_loop body i hi s = body i s ≫= for_loop body (i + 1) hi.
Proof.
  intros Hlt. rewrite for_loop_equation_1.
  destruct (decide (i < hi)); [| lia]. simpl.
  destruct (body i s); reflexivity.
Qed.

(** The invariant rule: an invariant kept by every iteration whose index
    lies in [[lo, hi)] holds when the loop ends, and the loop does end
    without error. *)
Lemma for_loop_inv (I : Z → St → Prop) body lo hi s :
  lo ≤ hi →
  I lo s →
  (∀ i t, lo ≤ i < hi → I i t → ∃ t', body i t = Some t' ∧ I (i + 1) t') →
  ∃ s', for_loop body lo hi s = Some s' ∧ I hi s'.
Proof.
  intros Hle Hinit Hstep.
  cut (∀ k i t, k = Z.to_nat (hi - i) → lo ≤ i ≤ hi → I i t →
         ∃ s', for_loop body i hi t = Some s' ∧ I hi s').
  { intros Hgen. apply (Hgen _ lo s eq_refl); [lia | exact Hinit]. }
  clear s Hinit. induction k as [|k IH]; intros i t Hk Hi Ht.
  - exists t. rewrite for_loop_done by lia.
    split; [reflexivity|]. replace hi with i by lia. exact Ht.
  - rewrite for_loop_step by lia.
    destruct (Hstep i t) as (t' & Hbody & Ht'); [lia | exact Ht |].
    rewrite Hbody. simpl. apply IH; [lia | lia | exact Ht'].
Qed.

(** The same rule, for a goal about the result of the loop. *)
Lemma for_loop_wp (I : Z → St → Prop) (Q : option St → Prop) body lo hi s :
  lo ≤ hi →
  I lo s →
  (∀ i t, lo ≤ i < hi → I i t → ∃ t', body i t = Some t' ∧ I (i + 1) t') →
  (∀ s', I hi s' → Q (Some s')) →
  Q (for_loop body lo hi s).
Proof.
  intros Hle Hinit Hstep Hpost.
  destruct (for_loop_inv I body lo hi s Hle Hinit Hstep) as (s' & -> & Hs').
  apply Hpost, Hs'.
Qed.

(** A loop runs to any intermediate bound first. *)
Lemma for_loop_split body lo mid hi s :
  lo ≤ mid ≤ hi →
  for_loop body lo hi s = for_loop body lo mid s ≫= for_loop body mid hi.
Proof.
  remember (Z.to_nat (mid - lo)) as k eqn:Hk.
  revert lo s Hk. induction k as [|k IH]; intros lo s Hk Hmid.
  - rewrite (for_loop_done body lo mid) by lia. simpl.
    replace mid with lo by lia. reflexivity.
  - rewrite (for_loop_step body lo hi), (for_loop_step body lo mid) by lia.
    destruct (body lo s) as [t|]; [simpl | reflexivity].
    apply IH; lia.
Qed.

(** Only the iterations in [[i, hi)] are run. *)
Lemma for_loop_ext body1 body2 i hi s :
  (∀ k t, i ≤ k < hi → body1 k t = body2 k t) →
  for_loop body1 i hi s = for_loop body2 i hi s.
Proof.
  remember (Z.to_nat (hi - i)) as n eqn:Hn.
  revert i s Hn. induction n as [|n IH]; intros i s Hn Hext.
  - rewrite !for_loop_done by lia. reflexivity.
  - rewrite !for_loop_step by lia. rewrite Hext by lia.
    destruct (body2 i s) as [t|]; [simpl | reflexivity].
    apply IH; [lia|]. intros k u Hk. apply Hext. lia.
Qed.

End for_loop_facts.

(** ** Arithmetic primitives *)

(** C8: on [int]s, [add_numbers a b] is [a + b] and [square x] is [x * x] in
    32-bit two's-complement arithmetic: the result is the [int] congruent to
    the exact result modulo [2^32], hence the exact result whenever that is
    an [int]; [add_numbers 3 4 = 7], [add_numbers (-1) 1 = 0],
    [square 5 = 25] and [square 0 = 0]. *)
Theorem add_numbers_square_wrap (a b x : Z) :
  Int.is_int a → Int.is_int b → Int.is_int x →
  (Int.is_int (add_numbers a b)
   ∧ (add_numbers a b - (a + b)) mod 2 ^ 32 = 0
   ∧ (∀ r, Int.is_int r → (r - (a + b)) mod 2 ^ 32 = 0 → r = add_numbers a b)
   ∧ (Int.is_int (a + b) → add_numbers a b = a + b))
  ∧ (Int.is_int (square x)
     ∧ (square x - x * x) mod 2 ^ 32 = 0
     ∧ (∀ r, Int.is_int r → (r - x * x) mod 2 ^ 32 = 0 → r = square x)
     ∧ (Int.is_int (x * x) → square x = x * x))
  ∧ add_numbers 3 4 = 7 ∧ add_numbers (-1) 1 = 0
  ∧ square 5 = 25 ∧ square 0 = 0.
Proof.
  intros _ _ _.
  split; [| split; [| repeat split; vm_compute; reflexivity]].
  - unfold add_numbers, Int.add. change (2 ^ 32) with Int.modulus.
    auto using wrap_is_int, wrap_congr, wrap_unique, wrap_id.
  - unfold square, Int.mul. change (2 ^ 32) with Int.modulus.
    auto using wrap_is_int, wrap_congr, wrap_unique, wrap_id.
Qed.

Lemma add_numbers_square_wrap_witness :
  (Int.is_int (add_numbers 2147483647 1)
   ∧ (add_numbers 2147483647 1 - (2147483647 + 1)) mod 2 ^ 32 = 0
   ∧ (∀ r, Int.is_int r → (r - (2147483647 + 1)) mod 2 ^ 32 = 0 →
        r = add_numbers 2147483647 1)
   ∧ (Int.is_int (2147483647 + 1) →
        add_numbers 2147483647 1 = 2147483647 + 1))
  ∧ (Int.is_int (square 65536)
     ∧ (square 65536 - 65536 * 65536) mod 2 ^ 32 = 0
     ∧ (∀ r, Int.is_int r → (r - 65536 * 65536) mod 2 ^ 32 = 0 →
          r = square 65536)
     ∧ (Int.is_int (65536 * 65536) → square 65536 = 65536 * 65536))
  ∧ add_numbers 3 4 = 7 ∧ add_numbers (-1) 1 = 0
  ∧ square 5 = 25 ∧ square 0 = 0.
Proof.
  apply (add_numbers_square_wrap 2147483647 1 65536);
    apply is_int_literal; vm_compute; discriminate.
Defined.

(** Overflowing calls, evaluated. *)
Example add_numbers_overflow : add_numbers 2147483647 1 = -2147483648.
Proof. vm_compute. reflexivity. Qed.

Example square_overflow : square 65536 = 0.
Proof. vm_compute. reflexivity. Qed.

(** ** fibonacci *)

Lemma fibonacci_base n : n ≤ 1 → fibonacci n = n.
Proof.
  intros Hn. rewrite fibonacci_equation_1.
  destruct (decide (n ≤ 1)); [reflexivity | lia].
Qed.

Lemma fibonacci_rec n :
  1 < n →
  fibonacci n = Int.add (fibonacci (Int.sub n 1)) (fibonacci (Int.sub n 2)).
Proof.
  intros Hn. rewrite fibonacci_equation_1.
  destruct (decide (n ≤ 1)); [lia | reflexivity].
Qed.

(** C4: for every [int] [n], [fibonacci n] is [n] when [n ≤ 1], negative [n]
    included, and otherwise the [int] sum of [fibonacci (n - 1)] and
    [fibonacci (n - 2)], which is their exact sum whenever that is an [int];
    [fibonacci 0 = 0], [fibonacci 1 = 1] and [fibonacci 10 = 55]. *)
Theorem fibonacci_spec (n : Z) :
  Int.is_int n →
  (n ≤ 1 → fibonacci n = n)
  ∧ (1 < n → fibonacci n = Int.add (fibonacci (n - 1)) (fibonacci (n - 2)))
  ∧ (1 < n → Int.is_int (fibonacci (n - 1) + fibonacci (n - 2)) →
       fibonacci n = fibonacci (n - 1) + fibonacci (n - 2))
  ∧ fibonacci 0 = 0 ∧ fibonacci 1 = 1 ∧ fibonacci 10 = 55.
Proof.
  intros Hn.
  assert (Hrec : 1 < n →
    fibonacci n = Int.add (fibonacci (n - 1)) (fibonacci (n - 2))).
  { intros H1. rewrite fibonacci_rec by exact H1.
    unfold Int.sub. rewrite !wrap_id; [reflexivity | |];
      unfold Int.is_int, Int.INT_MIN, Int.INT_MAX in *; lia. }
  split; [apply fibonacci_base|].
  split; [exact Hrec|].
  split.
  - intros H1 Hsum. rewrite Hrec by exact H1. apply wrap_id, Hsum.
  - repeat split; vm_compute; reflexivity.
Qed.

Lemma fibonacci_spec_witness :
  (10 ≤ 1 → fibonacci 10 = 10)
  ∧ (1 < 10 → fibonacci 10 = Int.add (fibonacci (10 - 1)) (fibonacci (10 - 2)))
  ∧ (1 < 10 → Int.is_int (fibonacci (10 - 1) + fibonacci (10 - 2)) →
       fibonacci 10 = fibonacci (10 - 1) + fibonacci (10 - 2))
  ∧ fibonacci 0 = 0 ∧ fibonacci 1 = 1 ∧ fibonacci 10 = 55.
Proof.
  apply (fibonacci_spec 10). apply is_int_literal; vm_compute; discriminate.
Defined.

Lemma wrap_add_r a b : Int.wrap (a + Int.wrap b) = Int.wrap (a + b).
Proof. rewrite Z.add_comm, wrap_add_l, Z.add_comm. reflexivity. Qed.

(** On the naturals that are [int]s, [fibonacci] is the exact Fibonacci
    number wrapped to 32 bits. *)
Lemma fibonacci_fib_pair (k : nat) :
  Z.of_nat k < Int.INT_MAX →
  fibonacci (Z.of_nat k) = Int.wrap (fib_pair k).1
  ∧ fibonacci (Z.of_nat k + 1) = Int.wrap (fib_pair k).2.
Proof.
  induction k as [|k IH]; intros Hk.
  - split; vm_compute; reflexivity.
  - destruct IH as [IH1 IH2]; [lia|].
    replace (Z.of_nat (S k)) with (Z.of_nat k + 1) by lia.
    split; [exact IH2|].
    rewrite fibonacci_rec by lia. unfold Int.sub.
    rewrite !wrap_id by (unfold Int.is_int, Int.INT_MIN, Int.INT_MAX in *; lia).
    replace (Z.of_nat k + 1 + 1 - 1) with (Z.of_nat k + 1) by lia.
    replace (Z.of_nat k + 1 + 1 - 2) with (Z.of_nat k) by lia.
    rewrite IH1, IH2. unfold Int.add. simpl fib_pair. cbv zeta. simpl snd.
    rewrite wrap_add_l, wrap_add_r, Z.add_comm. reflexivity.
Qed.

(** [F 47 = 2971215073] is the first Fibonacci number that is no [int]. *)
Example fibonacci_47 : fibonacci 47 = -1323752223.
Proof.
  destruct (fibonacci_fib_pair 47) as [H47 _]; [vm_compute; reflexivity|].
  change (Z.of_nat 47) with 47 in H47. rewrite H47.
  vm_compute. reflexivity.
Qed.

Example fibonacci_negative : fibonacci (-5) = -5.
Proof. vm_compute. reflexivity. Qed.

(** ** Memory accesses *)

Section memory.
Implicit Types (m : gmap block (list Z)) (p q : ptr) (cells : list Z).

(** An access at the start of a block, [k] elements further. *)
Lemma load_block m (b : block) cells k :
  m !! b = Some cells → 0 ≤ k →
  load m (ptr_add (b, 0) k) = cells !! Z.to_nat k.
Proof.
  intros Hb Hk. unfold load, ptr_add. simpl. rewrite Hb. simpl.
  rewrite decide_True by lia. reflexivity.
Qed.

Lemma load_negative m p : p.2 < 0 → load m p = None.
Proof.
  intros Hp. unfold load. destruct (m !! p.1); [simpl | reflexivity].
  rewrite decide_False by lia. reflexivity.
Qed.

Lemma load_Some m p v :
  load m p = Some v →
  ∃ cells, m !! p.1 = Some cells ∧ 0 ≤ p.2 < Z.of_nat (length cells)
           ∧ cells !! Z.to_nat p.2 = Some v.
Proof.
  unfold load. intros Hload.
  destruct (m !! p.1) as [cells|] eqn:Hb; [simpl in Hload | discriminate].
  destruct (decide (0 ≤ p.2)); [| discriminate].
  exists cells. split; [reflexivity|]. split; [| exact Hload].
  apply lookup_lt_Some in Hload. lia.
Qed.

Lemma store_Some m p v :
  is_Some (load m p) →
  ∃ cells, m !! p.1 = Some cells
           ∧ store m p v = Some (<[p.1 := <[Z.to_nat p.2 := v]> cells]> m).
Proof.
  intros [w Hw]. destruct (load_Some _ _ _ Hw) as (cells & Hb & Hrange & _).
  exists cells. split; [exact Hb|].
  unfold store. rewrite Hb. simpl. rewrite decide_True by exact Hrange.
  reflexivity.
Qed.

Lemma load_insert_eq m p cells k v :
  0 ≤ p.2 < Z.of_nat (length cells) → k = Z.to_nat p.2 →
  load (<[p.1 := <[k := v]> cells]> m) p = Some v.
Proof.
  intros Hrange ->. unfold load. rewrite lookup_insert_eq. simpl.
  rewrite decide_True by lia. apply list_lookup_insert_eq. lia.
Qed.

Lemma load_insert_ne m p q cells v :
  m !! p.1 = Some cells → 0 ≤ p.2 → q ≠ p →
  load (<[p.1 := <[Z.to_nat p.2 := v]> cells]> m) q = load m q.
Proof.
  intros Hb Hp Hne. unfold load.
  destruct (decide (q.1 = p.1)) as [Heq|Hblk].
  - rewrite Heq, lookup_insert_eq, Hb. simpl.
    destruct (decide (0 ≤ q.2)); [| reflexivity].
    apply list_lookup_insert_ne. intros Hofs.
    apply Hne. destruct p, q. simpl in *. f_equal; [exact Heq | lia].
  - rewrite lookup_insert_ne by congruence. reflexivity.
Qed.

End memory.

(** ** swap *)

(** C7: for distinct locations [a] and [b] holding [va] and [vb], [swap]
    succeeds and leaves [vb] at [a] and [va] at [b]; every other location,
    valid or not, reads as before; the only result is the new memory. *)
Theorem swap_exchanges (m : gmap block (list Z)) (a b : ptr) (va vb : Z) :
  a ≠ b →
  load m a = Some va →
  load m b = Some vb →
  ∃ m', swap m a b = Some m'
        ∧ load m' a = Some vb
        ∧ load m' b = Some va
        ∧ ∀ p, p ≠ a → p ≠ b → load m' p = load m p.
Proof.
  intros Hab Ha Hb.
  destruct (load_Some _ _ _ Ha) as (ca & Hca & Hra & _).
  destruct (store_Some m a vb) as (ca' & Hca' & Hst1); [eauto|].
  assert (ca' = ca) as -> by congruence.
  set (m1 := <[a.1 := <[Z.to_nat a.2 := vb]> ca]> m) in *.
  assert (Hb1 : load m1 b = Some vb).
  { unfold m1. rewrite load_insert_ne by (auto; lia). exact Hb. }
  destruct (load_Some _ _ _ Hb1) as (cb & Hcb & Hrb & _).
  destruct (store_Some m1 b va) as (cb' & Hcb' & Hst2); [eauto|].
  assert (cb' = cb) as -> by congruence.
  exists (<[b.1 := <[Z.to_nat b.2 := va]> cb]> m1).
  split; [| split; [| split]].
  - unfold swap. rewrite Ha, Hb. simpl. rewrite Hst1. simpl. exact Hst2.
  - rewrite load_insert_ne by (auto; lia).
    unfold m1. apply load_insert_eq; [exact Hra | reflexivity].
  - apply load_insert_eq; [exact Hrb | reflexivity].
  - intros p Hpa Hpb. rewrite load_insert_ne by (auto; lia).
    unfold m1. apply load_insert_ne; auto; lia.
Qed.

Lemma swap_exchanges_witness :
  ∃ m', swap (<[0%nat := [5; 2; 8]]> ∅) (0%nat, 0) (0%nat, 2) = Some m'
        ∧ load m' (0%nat, 0) = Some 8
        ∧ load m' (0%nat, 2) = Some 5
        ∧ ∀ p, p ≠ (0%nat, 0) → p ≠ (0%nat, 2) →
               load m' p = load (<[0%nat := [5; 2; 8]]> ∅) p.
Proof.
  apply (swap_exchanges (<[0%nat := [5; 2; 8]]> ∅) (0%nat, 0) (0%nat, 2) 5 8).
  - discriminate.
  - reflexivity.
  - reflexivity.
Defined.

(** C10: [swap p p] on a valid location [p] succeeds and leaves the value
    at [p], and the whole memory, as it was. *)
Theorem swap_self (m : gmap block (list Z)) (p : ptr) (v : Z) :
  load m p = Some v →
  ∃ m', swap m p p = Some m' ∧ load m' p = Some v ∧ m' = m.
Proof.
  intros Hp. exists m. split; [| split; [exact Hp | reflexivity]].
  destruct (load_Some _ _ _ Hp) as (cells & Hb & Hr & Hv).
  unfold swap. rewrite Hp. simpl.
  destruct (store_Some m p v) as (c1 & Hc1 & ->); [eauto|].
  assert (c1 = cells) as -> by congruence. simpl.
  rewrite list_insert_id by exact Hv. rewrite insert_id by exact Hb.
  destruct (store_Some m p v) as (c2 & Hc2 & ->); [eauto|].
  assert (c2 = cells) as -> by congruence.
  rewrite list_insert_id by exact Hv. rewrite insert_id by exact Hb.
  reflexivity.
Qed.

Lemma swap_self_witness :
  ∃ m', swap (<[0%nat := [5; 2; 8]]> ∅) (0%nat, 1) (0%nat, 1) = Some m'
        ∧ load m' (0%nat, 1) = Some 2
        ∧ m' = <[0%nat := [5; 2; 8]]> ∅.
Proof.
  apply (swap_self (<[0%nat := [5; 2; 8]]> ∅) (0%nat, 1) 2). reflexivity.
Defined.

(** ** sum_array *)

Lemma sumZ_app l1 l2 : sumZ (l1 ++ l2) = sumZ l1 + sumZ l2.
Proof.
  induction l1 as [|x l1 IH]; simpl; [reflexivity|].
  unfold sumZ in *. simpl. rewrite IH. lia.
Qed.

(** Adding the next element to the wrapped sum of a prefix. *)
Lemma sum_prefix_step (l : list Z) (k : nat) (x : Z) :
  l !! k = Some x →
  Int.add (Int.wrap (sumZ (take k l))) x = Int.wrap (sumZ (take (S k) l)).
Proof.
  intros Hx. unfold Int.add. rewrite wrap_add_l.
  rewrite (take_S_r _ _ _ Hx), sumZ_app. unfold sumZ at 3. simpl.
  rewrite Z.add_0_r. reflexivity.
Qed.

Lemma sum_array_wrap (m : gmap block (list Z)) (b : block) (l : list Z) len :
  m !! b = Some l →
  0 ≤ len ≤ Z.of_nat (length l) →
  sum_array m (b, 0) len = Some (Int.wrap (sumZ (take (Z.to_nat len) l))).
Proof.
  intros Hb Hlen. unfold sum_array.
  apply (for_loop_wp
    (λ i total, total = Int.wrap (sumZ (take (Z.to_nat i) l)))).
  - lia.
  - simpl. symmetry. apply wrap_0.
  - intros i t Hi ->.
    rewrite (load_block _ _ _ _ Hb) by lia.
    destruct (lookup_lt_is_Some_2 l (Z.to_nat i)) as [x Hx]; [lia|].
    rewrite Hx. simpl. eexists. split; [reflexivity|].
    rewrite (sum_prefix_step _ _ _ Hx).
    replace (Z.to_nat (i + 1)) with (S (Z.to_nat i)) by lia. reflexivity.
  - intros total ->. reflexivity.
Qed.

(** C5: for [0 ≤ len ≤ length l], [sum_array] on the array [l] returns the
    [int] sum of [l[0..len)], which is the exact sum whenever that is an
    [int]; it returns 0 for [len = 0], and 15 on [[1;2;3;4;5]] with
    [len = 5]. *)
Theorem sum_array_sum (m : gmap block (list Z)) (b : block) (l : list Z)
    (len : Z) :
  m !! b = Some l →
  Int.is_int len →
  0 ≤ len ≤ Z.of_nat (length l) →
  sum_array m (b, 0) len = Some (Int.wrap (sumZ (take (Z.to_nat len) l)))
  ∧ (Int.is_int (sumZ (take (Z.to_nat len) l)) →
       sum_array m (b, 0) len = Some (sumZ (take (Z.to_nat len) l)))
  ∧ (len = 0 → sum_array m (b, 0) len = Some 0)
  ∧ sum_array (<[0%nat := [1; 2; 3; 4; 5]]> ∅) (0%nat, 0) 5 = Some 15
  ∧ sum_array (<[0%nat := []]> ∅) (0%nat, 0) 0 = Some 0.
Proof.
  intros Hb _ Hlen.
  pose proof (sum_array_wrap m b l len Hb Hlen) as Hsum.
  split; [exact Hsum|]. split; [| split].
  - intros Hfits. rewrite Hsum, wrap_id by exact Hfits. reflexivity.
  - intros ->. rewrite Hsum. simpl. rewrite wrap_0. reflexivity.
  - split; vm_compute; reflexivity.
Qed.

Lemma sum_array_sum_witness :
  sum_array (<[0%nat := [7; -2; 4; 100]]> ∅) (0%nat, 0) 3
    = Some (Int.wrap (sumZ (take (Z.to_nat 3) [7; -2; 4; 100])))
  ∧ (Int.is_int (sumZ (take (Z.to_nat 3) [7; -2; 4; 100])) →
       sum_array (<[0%nat := [7; -2; 4; 100]]> ∅) (0%nat, 0) 3
         = Some (sumZ (take (Z.to_nat 3) [7; -2; 4; 100])))
  ∧ (3 = 0 → sum_array (<[0%nat := [7; -2; 4; 100]]> ∅) (0%nat, 0) 3 = Some 0)
  ∧ sum_array (<[0%nat := [1; 2; 3; 4; 5]]> ∅) (0%nat, 0) 5 = Some 15
  ∧ sum_array (<[0%nat := []]> ∅) (0%nat, 0) 0 = Some 0.
Proof.
  apply (sum_array_sum (<[0%nat := [7; -2; 4; 100]]> ∅) 0%nat [7; -2; 4; 100] 3).
  - reflexivity.
  - apply is_int_literal; vm_compute; discriminate.
  - simpl. lia.
Defined.

(** A sum that does not fit an [int] wraps. *)
Example sum_array_overflow :
  sum_array (<[0%nat := [2147483647; 1]]> ∅) (0%nat, 0) 2 = Some (-2147483648).
Proof. vm_compute. reflexivity. Qed.

(** ** string_length *)

Section string_length.
Variables (m : gmap block (list Z)) (b : block).

Lemma string_length_loop_S (fuel : nat) (s : ptr) (len : Z) :
  string_length_loop (S fuel) m s len
  = match load m (ptr_add s len) with
    | None => Fault
    | Some c =>
        if decide (c ≠ 0)
        then string_length_loop fuel m s (Int.add len 1)
        else Done len
    end.
Proof. reflexivity. Qed.

(** Over a run [pre] of non-terminators the loop advances [len] by the
    length of the run, provided the index reached fits an [int]. *)
Lemma string_length_loop_run (pre front rest : list Z) (fuel : nat) :
  m !! b = Some (front ++ pre ++ rest) →
  0 ∉ pre →
  Z.of_nat (length front + length pre) ≤ Int.INT_MAX →
  string_length_loop (length pre + fuel) m (b, 0) (Z.of_nat (length front))
    = string_length_loop fuel m (b, 0)
        (Z.of_nat (length front + length pre)).
Proof.
  revert front.
  induction pre as [|c pre IH]; intros front Hb Hnz Hfit.
  - simpl. rewrite Nat.add_0_r. reflexivity.
  - change (length (c :: pre) + fuel)%nat with (S (length pre + fuel)).
    rewrite string_length_loop_S.
    rewrite (load_block _ _ _ _ Hb) by lia.
    rewrite Nat2Z.id, lookup_app_r by lia.
    rewrite Nat.sub_diag. simpl lookup. cbv iota beta.
    apply not_elem_of_cons in Hnz as [Hc Hnz].
    rewrite decide_True by congruence.
    unfold Int.add. rewrite wrap_id.
    2:{ simpl in Hfit. unfold Int.is_int, Int.INT_MIN, Int.INT_MAX in *. lia. }
    replace (Z.of_nat (length front) + 1)
      with (Z.of_nat (length (front ++ [c])))
      by (rewrite length_app; simpl; lia).
    rewrite (IH (front ++ [c])).
    + rewrite length_app. simpl.
      replace (length front + 1 + length pre)%nat
        with (length front + S (length pre))%nat by lia.
      reflexivity.
    + rewrite <- app_assoc. exact Hb.
    + exact Hnz.
    + rewrite length_app. simpl in *. lia.
Qed.

(** When the run ends in a terminator, its index is returned. *)
Lemma string_length_loop_scan (pre front post : list Z) (fuel : nat) :
  m !! b = Some (front ++ pre ++ 0 :: post) →
  0 ∉ pre →
  Z.of_nat (length front + length pre) ≤ Int.INT_MAX →
  (length pre < fuel)%nat →
  string_length_loop fuel m (b, 0) (Z.of_nat (length front))
    = Done (Z.of_nat (length front + length pre)).
Proof.
  intros Hb Hnz Hfit Hfuel.
  replace fuel with (length pre + S (fuel - length pre - 1))%nat by lia.
  rewrite (string_length_loop_run pre front (0 :: post)) by assumption.
  rewrite string_length_loop_S.
  rewrite (load_block _ _ _ _ Hb) by lia.
  rewrite Nat2Z.id, app_assoc, lookup_app_r by (rewrite length_app; lia).
  rewrite length_app, Nat.sub_diag. reflexivity.
Qed.

(** The loop counter is an [int] throughout, so is the result. *)
Lemma string_length_loop_is_int (fuel : nat) (s : ptr) (len v : Z) :
  Int.is_int len →
  string_length_loop fuel m s len = Done v →
  Int.is_int v.
Proof.
  revert len. induction fuel as [|fuel IH]; intros len Hlen; simpl.
  - discriminate.
  - destruct (load m (ptr_add s len)) as [c|]; [| discriminate].
    destruct (decide (c ≠ 0)).
    + apply IH. apply wrap_is_int.
    + intros [= <-]. exact Hlen.
Qed.

(** Past [INT_MAX] the count is no [int]: when the first [2^31] characters
    are no terminators, [len++] wraps at [INT_MAX] and the next read, at
    a negative index, is outside the sequence. *)
Lemma string_length_wraps (pre rest : list Z) (fuel : nat) :
  m !! b = Some (pre ++ rest) →
  0 ∉ pre →
  Z.of_nat (length pre) = Int.INT_MAX + 1 →
  (length pre < fuel)%nat →
  string_length fuel m (b, 0) = Fault.
Proof.
  intros Hb Hnz Hlen Hfuel.
  destruct (exists_last (l := pre)) as (pre' & c & ->).
  { intros ->. simpl in Hlen. unfold Int.INT_MAX in Hlen. lia. }
  rewrite length_app in Hlen, Hfuel. simpl in Hlen, Hfuel.
  apply not_elem_of_app in Hnz as [Hnz Hc].
  apply not_elem_of_cons in Hc as [Hc _].
  rewrite <- app_assoc in Hb. simpl in Hb.
  unfold string_length.
  replace fuel with (length pre' + S (S (fuel - length pre' - 2)))%nat by lia.
  change 0 with (Z.of_nat (length (@nil Z))) at 2.
  rewrite (string_length_loop_run pre' [] (c :: rest));
    [| exact Hb | exact Hnz | simpl; lia].
  rewrite string_length_loop_S.
  rewrite (load_block _ _ _ _ Hb) by lia.
  rewrite Nat2Z.id, lookup_app_r by (simpl; lia).
  change (length [] + length pre')%nat with (length pre').
  rewrite Nat.sub_diag. simpl lookup. cbv iota beta.
  rewrite decide_True by congruence.
  replace (Z.of_nat (length pre')) with Int.INT_MAX by lia.
  unfold Int.add. rewrite wrap_max_succ.
  rewrite string_length_loop_S, load_negative; [reflexivity |].
  unfold Int.INT_MIN. simpl. lia.
Qed.

End string_length.

(** C6, amended: for a character sequence whose first terminator is at an
    index that fits an [int], [string_length] returns the number of
    characters before that terminator, given fuel for the iterations;
    [string_length ""] is 0 and [string_length "hello"] is 5. *)
Theorem string_length_counts (m : gmap block (list Z)) (b : block)
    (pre post : list Z) (fuel : nat) :
  m !! b = Some (pre ++ 0 :: post) →
  0 ∉ pre →
  Z.of_nat (length pre) ≤ Int.INT_MAX →
  (length pre < fuel)%nat →
  string_length fuel m (b, 0) = Done (Z.of_nat (length pre))
  ∧ string_length 1 (<[0%nat := [0]]> ∅) (0%nat, 0) = Done 0
  ∧ string_length 6 (<[0%nat := [104; 101; 108; 108; 111; 0]]> ∅) (0%nat, 0)
      = Done 5.
Proof.
  intros Hb Hnz Hfit Hfuel. split; [| split; vm_compute; reflexivity].
  unfold string_length.
  apply (string_length_loop_scan m b pre [] post fuel); simpl; assumption.
Qed.

Lemma string_length_counts_witness :
  string_length 4 (<[0%nat := [104; 105; 0; 33; 0]]> ∅) (0%nat, 0)
    = Done (Z.of_nat (length [104; 105]))
  ∧ string_length 1 (<[0%nat := [0]]> ∅) (0%nat, 0) = Done 0
  ∧ string_length 6 (<[0%nat := [104; 101; 108; 108; 111; 0]]> ∅) (0%nat, 0)
      = Done 5.
Proof.
  apply (string_length_counts (<[0%nat := [104; 105; 0; 33; 0]]> ∅) 0%nat
           [104; 105] [33; 0] 4).
  - reflexivity.
  - intros Hin. apply list_elem_of_In in Hin. simpl in Hin.
    destruct Hin as [H|[H|H]]; [discriminate H | discriminate H | exact H].
  - vm_compute. discriminate.
  - simpl. lia.
Defined.

(** C6 as stated fails on a sequence of [2^31] characters followed by the
    terminator: the number of characters before the terminator is [2^31],
    which [string_length] returns for no amount of fuel; with fuel for all
    its iterations it ends in an out-of-range read. *)
Lemma string_length_overlong :
  (0 ∉ replicate (Z.to_nat 2147483648) 97)
  ∧ Z.of_nat (length (replicate (Z.to_nat 2147483648) 97)) = 2147483648
  ∧ (∀ fuel,
      string_length fuel
        (<[0%nat := replicate (Z.to_nat 2147483648) 97 ++ [0]]> ∅) (0%nat, 0)
      ≠ Done 2147483648)
  ∧ (∀ fuel, (Z.to_nat 2147483648 < fuel)%nat →
      string_length fuel
        (<[0%nat := replicate (Z.to_nat 2147483648) 97 ++ [0]]> ∅) (0%nat, 0)
      = Fault).
Proof.
  assert (Hnz : 0 ∉ replicate (Z.to_nat 2147483648) 97).
  { intros Hin. apply elem_of_replicate in Hin as [Hin _]. discriminate Hin. }
  assert (Hlen :
    Z.of_nat (length (replicate (Z.to_nat 2147483648) 97)) = 2147483648).
  { rewrite length_replicate. lia. }
  split; [exact Hnz |]. split; [exact Hlen |]. split.
  - intros fuel Hdone. unfold string_length in Hdone.
    apply string_length_loop_is_int in Hdone.
    + unfold Int.is_int, Int.INT_MAX in Hdone. lia.
    + apply is_int_literal; vm_compute; discriminate.
  - intros fuel Hfuel.
    apply (string_length_wraps _ 0%nat
             (replicate (Z.to_nat 2147483648) 97) [0]).
    + apply lookup_insert_eq.
    + exact Hnz.
    + rewrite Hlen. reflexivity.
    + rewrite length_replicate. exact Hfuel.
Qed.

(** ** matrix_sum *)

Lemma load_matrix_block (m : gmap block (list Z)) (b : block) (l : list Z) i j :
  m !! b = Some l → 0 ≤ i → 0 ≤ j < 3 →
  load_matrix m (b, 0) i j = l !! Z.to_nat (3 * i + j).
Proof.
  intros Hb Hi Hj. unfold load_matrix. rewrite decide_True by exact Hj.
  unfold load, ptr_add. simpl. rewrite Hb. simpl.
  rewrite decide_True by lia. reflexivity.
Qed.


Example matrix_sum_ones :
  matrix_sum (<[0%nat := [1; 1; 1; 1; 1; 1; 1; 1; 1]]> ∅) (0%nat, 0) = Some 9.
Proof. vm_compute. reflexivity. Qed.

(** ** bubble_sort *)

Section bubble_sort.
Variables (m0 : gmap block (list Z)) (b : block).

(** [swap(&arr[j], &arr[j + 1])] exchanges two adjacent elements. *)
Lemma swap_adjacent (pre post : list Z) (x y : Z) :
  swap (<[b := pre ++ x :: y :: post]> m0)
       (b, Z.of_nat (length pre)) (b, Z.of_nat (length pre) + 1)
  = Some (<[b := pre ++ y :: x :: post]> m0).
Proof.
  set (j := length pre).
  assert (Hx : (pre ++ x :: y :: post) !! j = Some x).
  { unfold j. rewrite lookup_app_r, Nat.sub_diag by lia. reflexivity. }
  assert (Hy : (pre ++ x :: y :: post) !! S j = Some y).
  { unfold j. rewrite lookup_app_r by lia.
    replace (S (length pre) - length pre)%nat with 1%nat by lia.
    reflexivity. }
  assert (Hlen : length (pre ++ x :: y :: post) = (j + S (S (length post)))%nat).
  { rewrite length_app. reflexivity. }
  unfold swap, load, store. simpl.
  rewrite lookup_insert_eq. simpl.
  rewrite !decide_True by lia.
  rewrite Nat2Z.id, Hx. simpl.
  replace (Z.to_nat (Z.of_nat j + 1)) with (S j) by lia.
  rewrite Hy. simpl.
  rewrite decide_True by lia. simpl.
  rewrite lookup_insert_eq. simpl.
  rewrite length_insert, decide_True by lia.
  rewrite !insert_insert_eq.
  unfold j. rewrite !insert_app_r_alt by lia.
  rewrite Nat.sub_diag.
  replace (S (length pre) - length pre)%nat with 1%nat by lia.
  reflexivity.
Qed.

(** The body of the inner loop at index [j]: the larger of [arr[j]] and
    [arr[j + 1]] ends at [j + 1]. *)
Lemma compare_swap (pre post : list Z) (x y j : Z) :
  j = Z.of_nat (length pre) →
  Int.is_int (j + 1) →
  (x' ← load (<[b := pre ++ x :: y :: post]> m0) (ptr_add (b, 0) j);
   y' ← load (<[b := pre ++ x :: y :: post]> m0)
             (ptr_add (b, 0) (Int.add j 1));
   if decide (x' > y')
   then swap (<[b := pre ++ x :: y :: post]> m0)
             (ptr_add (b, 0) j) (ptr_add (b, 0) (Int.add j 1))
   else Some (<[b := pre ++ x :: y :: post]> m0))
  = Some (<[b := pre ++ Z.min x y :: Z.max x y :: post]> m0).
Proof.
  intros -> Hfit. unfold Int.add. rewrite (wrap_id _ Hfit).
  rewrite !(load_block _ _ (pre ++ x :: y :: post))
    by (try apply lookup_insert_eq; lia).
  replace (Z.to_nat (Z.of_nat (length pre) + 1)) with (S (length pre)) by lia.
  rewrite Nat2Z.id.
  assert (Hx : (pre ++ x :: y :: post) !! length pre = Some x).
  { rewrite lookup_app_r, Nat.sub_diag by lia. reflexivity. }
  assert (Hy : (pre ++ x :: y :: post) !! S (length pre) = Some y).
  { rewrite lookup_app_r by lia.
    replace (S (length pre) - length pre)%nat with 1%nat by lia.
    reflexivity. }
  rewrite Hx. simpl. rewrite Hy. simpl.
  destruct (decide (x > y)) as [Hgt|Hle].
  - unfold ptr_add. simpl. rewrite swap_adjacent.
    rewrite Z.min_r, Z.max_l by lia. reflexivity.
  - rewrite Z.min_l, Z.max_r by lia. reflexivity.
Qed.

Local Abbreviation inner_body := (λ (j : Z) (m : gmap block (list Z)),
  x ← load m (ptr_add (b, 0) j);
  y ← load m (ptr_add (b, 0) (Int.add j 1));
  if decide (x > y)
  then swap m (ptr_add (b, 0) j) (ptr_add (b, 0) (Int.add j 1))
  else Some m).

(** One run of the inner loop, over [cells[0..hi]]: the largest of these
    elements ends at index [hi], they are permuted among themselves, and
    the elements behind them are not touched. *)
Lemma bubble_pass (cells : list Z) (hi : Z) :
  1 ≤ hi → Int.is_int hi → hi < Z.of_nat (length cells) →
  ∃ pre x,
    for_loop inner_body 0 hi (<[b := cells]> m0)
      = Some (<[b := pre ++ x :: drop (S (Z.to_nat hi)) cells]> m0)
    ∧ Z.of_nat (length pre) = hi
    ∧ Forall (λ a, a ≤ x) pre
    ∧ pre ++ [x] ≡ₚ take (S (Z.to_nat hi)) cells.
Proof.
  intros Hhi Hfit Hlen.
  apply (for_loop_wp (λ j t, ∃ pre x,
    t = <[b := pre ++ x :: drop (S (Z.to_nat j)) cells]> m0
    ∧ Z.of_nat (length pre) = j
    ∧ Forall (λ a, a ≤ x) pre
    ∧ pre ++ [x] ≡ₚ take (S (Z.to_nat j)) cells)).
  - lia.
  - destruct cells as [|c cells]; [simpl in Hlen; lia|].
    exists [], c. simpl. rewrite drop_0, take_0. auto.
  - intros j t Hj (pre & x & -> & Hpre & Hmax & Hperm).
    destruct (lookup_lt_is_Some_2 cells (S (Z.to_nat j))) as [y Hy]; [lia|].
    rewrite (drop_S _ _ _ Hy).
    rewrite (compare_swap pre _ x y j);
      [| lia | unfold Int.is_int, Int.INT_MIN, Int.INT_MAX in *; lia].
    eexists. split; [reflexivity|].
    exists (pre ++ [Z.min x y]), (Z.max x y).
    replace (Z.to_nat (j + 1)) with (S (Z.to_nat j)) by lia.
    split; [| split; [| split]].
    + rewrite <- app_assoc. reflexivity.
    + rewrite length_app. simpl. lia.
    + apply Forall_app. split.
      * eapply Forall_impl; [exact Hmax|]. simpl. lia.
      * apply Forall_singleton. lia.
    + rewrite (take_S_r _ _ _ Hy), <- Hperm, <- !app_assoc.
      apply Permutation_app_head. simpl.
      destruct (Z.le_gt_cases x y).
      * rewrite Z.min_l, Z.max_r by lia. reflexivity.
      * rewrite Z.min_r, Z.max_l by lia. apply perm_swap.
  - intros t (pre & x & -> & Hpre & Hmax & Hperm). eauto 10.
Qed.

Lemma StronglySorted_short (l : list Z) :
  (length l ≤ 1)%nat → StronglySorted Z.le l.
Proof.
  destruct l as [|a [|a' l]]; simpl; intros Hl; [| | lia].
  - constructor.
  - repeat constructor.
Qed.

(** [bubble_sort] on the first [n] elements of a block: they end sorted
    and permuted among themselves, the elements behind them and all
    other blocks are left as they were, and no access is out of range. *)
Lemma bubble_sort_block (cells : list Z) (n : Z) :
  Int.is_int n → 0 ≤ n ≤ Z.of_nat (length cells) →
  ∃ cells',
    bubble_sort (<[b := cells]> m0) (b, 0) n = Some (<[b := cells']> m0)
    ∧ StronglySorted Z.le (take (Z.to_nat n) cells')
    ∧ take (Z.to_nat n) cells' ≡ₚ take (Z.to_nat n) cells
    ∧ drop (Z.to_nat n) cells' = drop (Z.to_nat n) cells.
Proof.
  intros Hfit Hn. unfold bubble_sort.
  assert (Hsub : ∀ k, 0 ≤ k ≤ n + 1 → Int.sub n k = n - k).
  { intros k Hk. apply wrap_id.
    unfold Int.is_int, Int.INT_MIN, Int.INT_MAX in *. lia. }
  rewrite (Hsub 1) by lia.
  destruct (decide (n ≤ 1)) as [Hsmall|Hbig].
  { rewrite for_loop_done by lia. exists cells.
    split; [reflexivity|]. split; [| split; reflexivity].
    apply StronglySorted_short. rewrite length_take. lia. }
  apply (for_loop_wp (λ i t, ∃ A B,
    t = <[b := A ++ B ++ drop (Z.to_nat n) cells]> m0
    ∧ Z.of_nat (length A) = n - i
    ∧ StronglySorted Z.le B
    ∧ Forall (λ a, Forall (Z.le a) B) A
    ∧ A ++ B ≡ₚ take (Z.to_nat n) cells)).
  - lia.
  - exists (take (Z.to_nat n) cells), []. simpl.
    rewrite take_drop, app_nil_r, length_take.
    split; [reflexivity|]. split; [lia|]. split; [constructor|].
    split; [| reflexivity]. apply Forall_forall. intros; constructor.
  - intros i t Hi (A & B & -> & HA & HB & HAB & Hperm).
    rewrite (Hsub i) by lia.
    assert (Hsub' : Int.sub (n - i) 1 = n - i - 1).
    { apply wrap_id.
      unfold Int.is_int, Int.INT_MIN, Int.INT_MAX in *. lia. }
    rewrite Hsub'.
    destruct (bubble_pass (A ++ B ++ drop (Z.to_nat n) cells) (n - i - 1))
      as (pre & x & Hrun & Hpre & Hmax & Hpass).
    { lia. }
    { unfold Int.is_int, Int.INT_MIN, Int.INT_MAX in *. lia. }
    { rewrite length_app. lia. }
    rewrite Hrun.
    rewrite drop_app_length' in * by lia.
    rewrite take_app_length' in Hpass by lia.
    eexists. split; [reflexivity|]. exists pre, (x :: B).
    assert (Hx : x ∈ A).
    { rewrite <- Hpass. apply elem_of_app. right. apply list_elem_of_singleton.
      reflexivity. }
    rewrite Forall_forall in HAB.
    split; [reflexivity|]. split; [lia|]. split; [| split].
    + constructor; [exact HB | apply HAB, Hx].
    + apply Forall_forall. intros a Ha. constructor.
      * rewrite Forall_forall in Hmax. apply Hmax, Ha.
      * apply HAB. rewrite <- Hpass. apply elem_of_app. left. exact Ha.
    + rewrite <- Hperm, <- Hpass, <- app_assoc. reflexivity.
  - intros t (A & B & -> & HA & HB & HAB & Hperm).
    exists (A ++ B ++ drop (Z.to_nat n) cells).
    assert (Hlen : length (A ++ B) = Z.to_nat n).
    { rewrite Hperm, length_take. lia. }
    rewrite app_assoc.
    rewrite take_app_length', drop_app_length' by (symmetry; exact Hlen).
    split; [reflexivity|]. split; [| split; [exact Hperm | reflexivity]].
    destruct A as [|a [|a' A]]; simpl in HA; [lia | | lia].
    simpl. constructor; [exact HB|].
    apply Forall_inv in HAB. exact HAB.
Qed.

(** An inner loop whose bound reaches the length of the block reads
    past its end. *)
Lemma inner_loop_overrun (cells : list Z) (hi : Z) :
  1 ≤ hi → Int.is_int hi → Z.of_nat (length cells) ≤ hi →
  for_loop inner_body 0 hi (<[b := cells]> m0) = None.
Proof.
  intros Hhi Hfit Hlen.
  destruct (decide (length cells = 0%nat)) as [Hnil|Hcons].
  { rewrite for_loop_step by lia.
    rewrite (load_block _ _ cells 0) by (try apply lookup_insert_eq; lia).
    rewrite lookup_ge_None_2 by lia. reflexivity. }
  set (last := Z.of_nat (length cells) - 1).
  assert (Hlast : ∃ cells',
    for_loop inner_body 0 last (<[b := cells]> m0)
      = Some (<[b := cells']> m0)
    ∧ length cells' = length cells).
  { destruct (decide (last = 0)) as [-> | Hpos].
    - rewrite for_loop_done by lia. eauto.
    - destruct (bubble_pass cells last)
        as (pre & x & -> & Hpre & _ & _);
        [ lia
        | unfold Int.is_int, Int.INT_MIN, Int.INT_MAX, last in *; lia
        | unfold last; lia |].
      eexists. split; [reflexivity|].
      rewrite length_app. simpl. rewrite length_drop.
      unfold last in *. lia. }
  destruct Hlast as (cells' & Hrun & Hlen').
  rewrite (for_loop_split _ 0 last hi) by (unfold last; lia).
  rewrite Hrun. simpl.
  rewrite for_loop_step by (unfold last; lia).
  unfold Int.add. rewrite wrap_id
    by (unfold Int.is_int, Int.INT_MIN, Int.INT_MAX, last in *; lia).
  rewrite (load_block _ _ cells' last), (load_block _ _ cells' (last + 1))
    by (try apply lookup_insert_eq; unfold last; lia).
  rewrite (lookup_ge_None_2 cells' (Z.to_nat (last + 1)))
    by (unfold last; lia).
  destruct (cells' !! Z.to_nat last); reflexivity.
Qed.

End bubble_sort.

Section bubble_sort_array.
Variables (m : gmap block (list Z)) (b : block) (l : list Z).
Hypothesis Hblock : m !! b = Some l.

(** [bubble_sort] on an array that is a whole block of the memory. *)
Lemma bubble_sort_array (n : Z) :
  Int.is_int n → 0 ≤ n ≤ Z.of_nat (length l) →
  ∃ l',
    bubble_sort m (b, 0) n = Some (<[b := l']> m)
    ∧ Sorted Z.le (take (Z.to_nat n) l')
    ∧ take (Z.to_nat n) l' ≡ₚ take (Z.to_nat n) l
    ∧ drop (Z.to_nat n) l' = drop (Z.to_nat n) l.
Proof.
  intros Hfit Hn.
  destruct (bubble_sort_block m b l n Hfit Hn)
    as (l' & Hrun & Hsorted & Hperm & Hrest).
  rewrite (insert_id m b l Hblock) in Hrun.
  exists l'. split; [exact Hrun|].
  split; [apply StronglySorted_Sorted, Hsorted | auto].
Qed.

(** Sorting the whole array. *)
Lemma bubble_sort_whole (n : Z) :
  Int.is_int n → n = Z.of_nat (length l) →
  ∃ l',
    bubble_sort m (b, 0) n = Some (<[b := l']> m)
    ∧ Sorted Z.le l' ∧ l' ≡ₚ l.
Proof.
  intros Hfit Hn.
  destruct (bubble_sort_array n Hfit) as (l' & Hrun & Hsorted & Hperm & Hrest);
    [lia|].
  rewrite (take_ge l), (drop_ge l) in * by lia.
  assert (Hl' : take (Z.to_nat n) l' = l').
  { rewrite <- (take_drop (Z.to_nat n) l') at 2.
    rewrite Hrest, app_nil_r. reflexivity. }
  rewrite Hl' in *. eauto.
Qed.

End bubble_sort_array.

(** A sorted array is sorted to itself. *)
Lemma bubble_sort_sorted_fixed (m : gmap block (list Z)) (b : block)
    (l : list Z) (n : Z) :
  m !! b = Some l → Int.is_int n → n = Z.of_nat (length l) →
  Sorted Z.le l →
  bubble_sort m (b, 0) n = Some m.
Proof.
  intros Hb Hfit Hn Hsorted.
  destruct (bubble_sort_whole m b l Hb n Hfit Hn) as (l' & -> & Hl' & Hperm).
  rewrite (Sorted_unique Z.le l' l Hl' Hsorted Hperm).
  rewrite (insert_id m b l Hb). reflexivity.
Qed.

(** C1: [bubble_sort] on a list with [n] its length succeeds and leaves the
    one ascending ordering of the elements of the list: the result is
    sorted, a permutation of the input, equal to every sorted permutation
    of the input, and the same for every permutation of the input;
    [[5;2;8;1;9]] is sorted to [[1;2;5;8;9]]. *)
Theorem bubble_sort_sorts (m : gmap block (list Z)) (b : block) (l : list Z)
    (n : Z) :
  m !! b = Some l →
  Int.is_int n →
  n = Z.of_nat (length l) →
  ∃ l',
    bubble_sort m (b, 0) n = Some (<[b := l']> m)
    ∧ Sorted Z.le l'
    ∧ l' ≡ₚ l
    ∧ (∀ l'', Sorted Z.le l'' → l'' ≡ₚ l → l'' = l')
    ∧ (∀ (m2 : gmap block (list Z)) (b2 : block) (l2 : list Z),
         m2 !! b2 = Some l2 → l2 ≡ₚ l →
         bubble_sort m2 (b2, 0) n = Some (<[b2 := l']> m2))
    ∧ bubble_sort (<[0%nat := [5; 2; 8; 1; 9]]> ∅) (0%nat, 0) 5
        = Some (<[0%nat := [1; 2; 5; 8; 9]]> ∅).
Proof.
  intros Hb Hfit Hn.
  destruct (bubble_sort_whole m b l Hb n Hfit Hn) as (l' & Hrun & Hl' & Hperm).
  exists l'. split; [exact Hrun|]. split; [exact Hl'|]. split; [exact Hperm|].
  assert (Huniq : ∀ l'', Sorted Z.le l'' → l'' ≡ₚ l → l'' = l').
  { intros l'' Hl'' Hperm''. apply (Sorted_unique Z.le); [assumption..|].
    rewrite Hperm, Hperm''. reflexivity. }
  split; [exact Huniq|]. split; [| vm_compute; reflexivity].
  intros m2 b2 l2 Hb2 Hperm2.
  destruct (bubble_sort_whole m2 b2 l2 Hb2 n Hfit) as (l2' & -> & Hl2' & Hp2).
  { rewrite Hn. f_equal. symmetry. apply Permutation_length, Hperm2. }
  rewrite (Huniq l2' Hl2'); [reflexivity|].
  rewrite Hp2. exact Hperm2.
Qed.

Lemma bubble_sort_sorts_witness :
  ∃ l',
    bubble_sort (<[0%nat := [3; 1; 2]]> ∅) (0%nat, 0) 3
      = Some (<[0%nat := l']> (<[0%nat := [3; 1; 2]]> ∅))
    ∧ Sorted Z.le l'
    ∧ l' ≡ₚ [3; 1; 2]
    ∧ (∀ l'', Sorted Z.le l'' → l'' ≡ₚ [3; 1; 2] → l'' = l')
    ∧ (∀ (m2 : gmap block (list Z)) (b2 : block) (l2 : list Z),
         m2 !! b2 = Some l2 → l2 ≡ₚ [3; 1; 2] →
         bubble_sort m2 (b2, 0) 3 = Some (<[b2 := l']> m2))
    ∧ bubble_sort (<[0%nat := [5; 2; 8; 1; 9]]> ∅) (0%nat, 0) 5
        = Some (<[0%nat := [1; 2; 5; 8; 9]]> ∅).
Proof.
  apply (bubble_sort_sorts (<[0%nat := [3; 1; 2]]> ∅) 0%nat [3; 1; 2] 3).
  - reflexivity.
  - apply is_int_literal; vm_compute; discriminate.
  - reflexivity.
Defined.

(** C2: [bubble_sort] leaves an array that is already in ascending order,
    the empty one included, as it is, and sorting a second time changes
    nothing. *)
Theorem bubble_sort_idempotent (m : gmap block (list Z)) (b : block)
    (l : list Z) (n : Z) :
  m !! b = Some l →
  Int.is_int n →
  n = Z.of_nat (length l) →
  (Sorted Z.le l → bubble_sort m (b, 0) n = Some m)
  ∧ (∃ m', bubble_sort m (b, 0) n = Some m'
           ∧ bubble_sort m' (b, 0) n = Some m')
  ∧ bubble_sort m (b, 0) n ≫= (λ m', bubble_sort m' (b, 0) n)
      = bubble_sort m (b, 0) n
  ∧ bubble_sort (<[0%nat := []]> ∅) (0%nat, 0) 0 = Some (<[0%nat := []]> ∅).
Proof.
  intros Hb Hfit Hn.
  destruct (bubble_sort_whole m b l Hb n Hfit Hn) as (l' & Hrun & Hl' & Hperm).
  assert (Hagain : bubble_sort (<[b := l']> m) (b, 0) n = Some (<[b := l']> m)).
  { apply (bubble_sort_sorted_fixed _ b l').
    - apply lookup_insert_eq.
    - exact Hfit.
    - rewrite Hn. f_equal. symmetry. apply Permutation_length, Hperm.
    - exact Hl'. }
  split; [apply (bubble_sort_sorted_fixed m b l); assumption|].
  split; [eauto|].
  split; [rewrite Hrun; simpl; exact Hagain | vm_compute; reflexivity].
Qed.

Lemma bubble_sort_idempotent_witness :
  (Sorted Z.le [3; 1; 2] →
     bubble_sort (<[0%nat := [3; 1; 2]]> ∅) (0%nat, 0) 3
       = Some (<[0%nat := [3; 1; 2]]> ∅))
  ∧ (∃ m', bubble_sort (<[0%nat := [3; 1; 2]]> ∅) (0%nat, 0) 3 = Some m'
           ∧ bubble_sort m' (0%nat, 0) 3 = Some m')
  ∧ bubble_sort (<[0%nat := [3; 1; 2]]> ∅) (0%nat, 0) 3
      ≫= (λ m', bubble_sort m' (0%nat, 0) 3)
      = bubble_sort (<[0%nat := [3; 1; 2]]> ∅) (0%nat, 0) 3
  ∧ bubble_sort (<[0%nat := []]> ∅) (0%nat, 0) 0 = Some (<[0%nat := []]> ∅).
Proof.
  apply (bubble_sort_idempotent (<[0%nat := [3; 1; 2]]> ∅) 0%nat [3; 1; 2] 3).
  - reflexivity.
  - apply is_int_literal; vm_compute; discriminate.
  - reflexivity.
Defined.

Example bubble_sort_fixes_sorted :
  bubble_sort (<[0%nat := [1; 2; 2; 7]]> ∅) (0%nat, 0) 4
    = Some (<[0%nat := [1; 2; 2; 7]]> ∅).
Proof. vm_compute. reflexivity. Qed.

(** C9: for [0 ≤ n ≤ length l], [bubble_sort] sorts the first [n] elements
    among themselves and leaves every element at an index from [n] on, and
    every other block, as it was; for [n ≤ 1] the array is unchanged. *)
Theorem bubble_sort_frame (m : gmap block (list Z)) (b : block) (l : list Z)
    (n : Z) :
  m !! b = Some l →
  Int.is_int n →
  0 ≤ n ≤ Z.of_nat (length l) →
  ∃ l',
    bubble_sort m (b, 0) n = Some (<[b := l']> m)
    ∧ length l' = length l
    ∧ Sorted Z.le (take (Z.to_nat n) l')
    ∧ take (Z.to_nat n) l' ≡ₚ take (Z.to_nat n) l
    ∧ (∀ k : nat, (Z.to_nat n ≤ k)%nat → l' !! k = l !! k)
    ∧ (n ≤ 1 → l' = l).
Proof.
  intros Hb Hfit Hn.
  destruct (bubble_sort_array m b l Hb n Hfit Hn)
    as (l' & Hrun & Hl' & Hperm & Hrest).
  exists l'. split; [exact Hrun|].
  split; [| split; [exact Hl' | split; [exact Hperm | split]]].
  - rewrite <- (take_drop (Z.to_nat n) l'), <- (take_drop (Z.to_nat n) l).
    rewrite !(length_app (take _ _)), Hrest.
    rewrite (Permutation_length Hperm). reflexivity.
  - intros k Hk.
    replace k with (Z.to_nat n + (k - Z.to_nat n))%nat by lia.
    rewrite <- !lookup_drop, Hrest. reflexivity.
  - intros Hsmall.
    rewrite <- (take_drop (Z.to_nat n) l'), <- (take_drop (Z.to_nat n) l).
    rewrite Hrest. f_equal.
    apply (Sorted_unique Z.le); [exact Hl' | | exact Hperm].
    apply StronglySorted_Sorted, StronglySorted_short.
    rewrite length_take. lia.
Qed.

Lemma bubble_sort_frame_witness :
  ∃ l',
    bubble_sort (<[0%nat := [9; 4; 6; 3; 1]]> ∅) (0%nat, 0) 3
      = Some (<[0%nat := l']> (<[0%nat := [9; 4; 6; 3; 1]]> ∅))
    ∧ length l' = length [9; 4; 6; 3; 1]
    ∧ Sorted Z.le (take (Z.to_nat 3) l')
    ∧ take (Z.to_nat 3) l' ≡ₚ take (Z.to_nat 3) [9; 4; 6; 3; 1]
    ∧ (∀ k : nat, (Z.to_nat 3 ≤ k)%nat → l' !! k = [9; 4; 6; 3; 1] !! k)
    ∧ (3 ≤ 1 → l' = [9; 4; 6; 3; 1]).
Proof.
  apply (bubble_sort_frame (<[0%nat := [9; 4; 6; 3; 1]]> ∅) 0%nat
           [9; 4; 6; 3; 1] 3).
  - reflexivity.
  - apply is_int_literal; vm_compute; discriminate.
  - simpl. lia.
Defined.

Example bubble_sort_prefix :
  bubble_sort (<[0%nat := [9; 4; 6; 3; 1]]> ∅) (0%nat, 0) 3
    = Some (<[0%nat := [4; 6; 9; 3; 1]]> ∅).
Proof. vm_compute. reflexivity. Qed.

(** ** Bounds safety *)



(** * Further properties *)

(** ** max_of_three *)

(** X1: [max_of_three] returns one of its arguments, no smaller than any
    of them: the maximum of the three, whatever their order; no arithmetic
    is involved, so an [int] result needs no wrap-around. *)
Theorem max_of_three_is_max (a b c : Z) :
  (max_of_three a b c = a ∨ max_of_three a b c = b ∨ max_of_three a b c = c)
  ∧ a ≤ max_of_three a b c
  ∧ b ≤ max_of_three a b c
  ∧ c ≤ max_of_three a b c
  ∧ max_of_three a b c = Z.max (Z.max a b) c
  ∧ max_of_three a b c = max_of_three b a c
  ∧ max_of_three a b c = max_of_three a c b.
Proof.
  unfold max_of_three. cbv zeta.
  repeat match goal with
         | |- context [decide (?x > ?y)] =>
             is_var x; is_var y; destruct (decide (x > y))
         end;
    repeat split; lia.
Qed.

(** ** Arithmetic under wrap-around *)

Lemma wrap_eq_of_congr a b :
  (a - b) mod Int.modulus = 0 → Int.wrap a = Int.wrap b.
Proof.
  intros Hab. apply wrap_unique; [apply wrap_is_int|].
  pose proof (wrap_congr a) as Ha.
  apply Z.mod_divide in Hab; [| unfold Int.modulus; lia].
  apply Z.mod_divide in Ha; [| unfold Int.modulus; lia].
  apply Z.mod_divide; [unfold Int.modulus; lia|].
  destruct Hab as [c Hc]. destruct Ha as [d Hd].
  exists (c + d). lia.
Qed.

Lemma wrap_mul a b : Int.wrap (Int.wrap a * Int.wrap b) = Int.wrap (a * b).
Proof.
  apply wrap_eq_of_congr.
  pose proof (wrap_congr a) as Ha. pose proof (wrap_congr b) as Hb.
  apply Z.mod_divide in Ha; [| unfold Int.modulus; lia].
  apply Z.mod_divide in Hb; [| unfold Int.modulus; lia].
  apply Z.mod_divide; [unfold Int.modulus; lia|].
  destruct Ha as [c Hc]. destruct Hb as [d Hd].
  exists (c * b + a * d + c * d * Int.modulus).
  replace (Int.wrap a) with (a + c * Int.modulus) by lia.
  replace (Int.wrap b) with (b + d * Int.modulus) by lia.
  ring.
Qed.

(** X2: on [int]s, [add_numbers] is commutative and associative also when
    it overflows, has 0 as neutral element, and an overflowing sum is off
    by exactly [2^32]: too large a sum comes out negative, too small a sum
    positive. *)
Theorem add_numbers_algebra (a b c : Z) :
  Int.is_int a → Int.is_int b → Int.is_int c →
  add_numbers a b = add_numbers b a
  ∧ add_numbers a (add_numbers b c) = add_numbers (add_numbers a b) c
  ∧ add_numbers a 0 = a
  ∧ (Int.INT_MAX < a + b → add_numbers a b = a + b - 2 ^ 32 ∧ add_numbers a b < 0)
  ∧ (a + b < Int.INT_MIN → add_numbers a b = a + b + 2 ^ 32 ∧ 0 ≤ add_numbers a b).
Proof.
  intros Ha Hb Hc. unfold add_numbers, Int.add.
  assert (Hshift : ∀ z k, Int.is_int (z + k * Int.modulus) →
            Int.wrap z = z + k * Int.modulus).
  { intros z k Hz. symmetry. apply wrap_unique; [exact Hz|].
    replace (z + k * Int.modulus - z) with (k * Int.modulus) by lia.
    apply Z.mod_mul. unfold Int.modulus. lia. }
  split; [rewrite Z.add_comm; reflexivity|].
  split; [rewrite wrap_add_l, wrap_add_r, Z.add_assoc; reflexivity|].
  split; [rewrite Z.add_0_r; apply wrap_id, Ha|].
  unfold Int.is_int, Int.INT_MIN, Int.INT_MAX, Int.modulus in *.
  split; intros Hov.
  - rewrite (Hshift (a + b) (-1)) by lia. lia.
  - rewrite (Hshift (a + b) 1) by lia. lia.
Qed.

Lemma add_numbers_algebra_witness :
  add_numbers 2147483647 5 = add_numbers 5 2147483647
  ∧ add_numbers 2147483647 (add_numbers 5 (-7))
    = add_numbers (add_numbers 2147483647 5) (-7)
  ∧ add_numbers 2147483647 0 = 2147483647
  ∧ (Int.INT_MAX < 2147483647 + 5 →
       add_numbers 2147483647 5 = 2147483647 + 5 - 2 ^ 32
       ∧ add_numbers 2147483647 5 < 0)
  ∧ (2147483647 + 5 < Int.INT_MIN →
       add_numbers 2147483647 5 = 2147483647 + 5 + 2 ^ 32
       ∧ 0 ≤ add_numbers 2147483647 5).
Proof.
  apply (add_numbers_algebra 2147483647 5 (-7));
    apply is_int_literal; vm_compute; discriminate.
Defined.

(** X3: [square x] is the exact square, hence non-negative, exactly for
    [|x| ≤ 46340]; beyond that the product overflows.  Overflowing or not,
    [square] does not see the sign of its argument, and the square of an
    [add_numbers] result is the square of the exact sum, wrapped. *)
Theorem square_range (x a b : Z) :
  Int.is_int x →
  (square x = x * x ↔ -46340 ≤ x ≤ 46340)
  ∧ (-46340 ≤ x ≤ 46340 → 0 ≤ square x)
  ∧ square (Int.sub 0 x) = square x
  ∧ square (add_numbers a b) = Int.wrap ((a + b) * (a + b))
  ∧ square 46341 = -2147479015.
Proof.
  intros Hx. unfold square, add_numbers, Int.mul, Int.add, Int.sub. cbv zeta.
  split; [| split; [| split; [| split]]].
  - split.
    + intros Heq. pose proof (wrap_is_int (x * x)) as Hw. rewrite Heq in Hw.
      unfold Int.is_int, Int.INT_MIN, Int.INT_MAX in *. nia.
    + intros Hsmall. apply wrap_id.
      unfold Int.is_int, Int.INT_MIN, Int.INT_MAX in *. nia.
  - intros Hsmall. rewrite wrap_id; [nia|].
    unfold Int.is_int, Int.INT_MIN, Int.INT_MAX in *. nia.
  - rewrite wrap_mul. f_equal. ring.
  - apply wrap_mul.
  - vm_compute. reflexivity.
Qed.

Lemma square_range_witness :
  (square (-46341) = -46341 * -46341 ↔ -46340 ≤ -46341 ≤ 46340)
  ∧ (-46340 ≤ -46341 ≤ 46340 → 0 ≤ square (-46341))
  ∧ square (Int.sub 0 (-46341)) = square (-46341)
  ∧ square (add_numbers 46000 341) = Int.wrap ((46000 + 341) * (46000 + 341))
  ∧ square 46341 = -2147479015.
Proof.
  apply (square_range (-46341) 46000 341).
  apply is_int_literal; vm_compute; discriminate.
Defined.

(** ** Loops that fault *)

(** A loop whose iterations before [k] succeed and whose iteration [k]
    fails, fails. *)
Lemma for_loop_fault {St : Type} (I : Z → St → Prop)
    (body : Z → St → option St) lo k hi s :
  lo ≤ k < hi →
  I lo s →
  (∀ i t, lo ≤ i < k → I i t → ∃ t', body i t = Some t' ∧ I (i + 1) t') →
  (∀ t, I k t → body k t = None) →
  for_loop body lo hi s = None.
Proof.
  intros Hk Hinit Hstep Hfail.
  rewrite (for_loop_split body lo k hi) by lia.
  destruct (for_loop_inv I body lo k s) as (t & -> & Ht); [lia | assumption.. |].
  simpl. rewrite for_loop_step by lia.
  rewrite (Hfail t Ht). reflexivity.
Qed.

(** ** sum_array, further *)

Lemma sumZ_perm (l1 l2 : list Z) : l1 ≡ₚ l2 → sumZ l1 = sumZ l2.
Proof.
  unfold sumZ. induction 1; simpl; lia.
Qed.

Lemma sum_array_past_end (m : gmap block (list Z)) (b : block)
    (l : list Z) (len : Z) :
  m !! b = Some l →
  Z.of_nat (length l) < len →
  sum_array m (b, 0) len = None.
Proof.
  intros Hb Hlen. unfold sum_array.
  apply (for_loop_fault (λ _ _, True) _ 0 (Z.of_nat (length l))).
  - lia.
  - exact I.
  - intros i t Hi _. rewrite (load_block _ _ _ _ Hb) by lia.
    destruct (lookup_lt_is_Some_2 l (Z.to_nat i)) as [x ->]; [lia|].
    simpl. eauto.
  - intros t _. rewrite (load_block _ _ _ _ Hb) by lia.
    rewrite lookup_ge_None_2 by lia. reflexivity.
Qed.

(** X4: on an array [l], [sum_array] faults exactly when [len] exceeds the
    length of the array; a [len] of zero or less gives 0 without any
    access, whatever the pointer. *)
Theorem sum_array_faults_iff (m : gmap block (list Z)) (b : block)
    (l : list Z) (len : Z) :
  m !! b = Some l →
  (sum_array m (b, 0) len = None ↔ Z.of_nat (length l) < len)
  ∧ (len ≤ 0 → ∀ arr, sum_array m arr len = Some 0).
Proof.
  intros Hb. split; [split|].
  - intros Hnone. destruct (decide (Z.of_nat (length l) < len)); [assumption|].
    destruct (decide (0 ≤ len)).
    + rewrite (sum_array_wrap m b l len Hb) in Hnone by lia. discriminate.
    + unfold sum_array in Hnone. rewrite for_loop_done in Hnone by lia.
      discriminate.
  - apply sum_array_past_end, Hb.
  - intros Hlen arr. unfold sum_array. apply for_loop_done. lia.
Qed.

Lemma sum_array_faults_iff_witness :
  (sum_array (<[0%nat := [4; 5; 6]]> ∅) (0%nat, 0) 4 = None
   ↔ Z.of_nat (length [4; 5; 6]) < 4)
  ∧ (4 ≤ 0 → ∀ arr, sum_array (<[0%nat := [4; 5; 6]]> ∅) arr 4 = Some 0).
Proof.
  apply (sum_array_faults_iff (<[0%nat := [4; 5; 6]]> ∅) 0%nat [4; 5; 6] 4).
  reflexivity.
Defined.

(** X5: [bubble_sort] does not change what [sum_array] returns: sorting
    the first [n] elements and then summing them gives the sum before
    sorting, overflow included. *)
Theorem bubble_sort_preserves_sum (m : gmap block (list Z)) (b : block)
    (l : list Z) (n : Z) :
  m !! b = Some l →
  Int.is_int n →
  0 ≤ n ≤ Z.of_nat (length l) →
  ∃ m', bubble_sort m (b, 0) n = Some m'
        ∧ sum_array m' (b, 0) n = sum_array m (b, 0) n.
Proof.
  intros Hb Hfit Hn.
  destruct (bubble_sort_array m b l Hb n Hfit Hn)
    as (l' & Hrun & _ & Hperm & Hrest).
  exists (<[b := l']> m). split; [exact Hrun|].
  assert (Hlen : length l' = length l).
  { rewrite <- (take_drop (Z.to_nat n) l'), <- (take_drop (Z.to_nat n) l).
    rewrite !(length_app (take _ _)), Hrest.
    rewrite (Permutation_length Hperm). reflexivity. }
  rewrite (sum_array_wrap _ b l') by (try apply lookup_insert_eq; lia).
  rewrite (sum_array_wrap m b l) by (try exact Hb; lia).
  rewrite (sumZ_perm _ _ Hperm). reflexivity.
Qed.

Lemma bubble_sort_preserves_sum_witness :
  ∃ m', bubble_sort (<[0%nat := [2147483647; -3; 9; 1]]> ∅) (0%nat, 0) 3
          = Some m'
        ∧ sum_array m' (0%nat, 0) 3
          = sum_array (<[0%nat := [2147483647; -3; 9; 1]]> ∅) (0%nat, 0) 3.
Proof.
  apply (bubble_sort_preserves_sum (<[0%nat := [2147483647; -3; 9; 1]]> ∅)
           0%nat [2147483647; -3; 9; 1] 3).
  - reflexivity.
  - apply is_int_literal; vm_compute; discriminate.
  - simpl. lia.
Defined.

(** ** matrix_sum, further *)

Lemma matrix_sum_take (m : gmap block (list Z)) (b : block) (l : list Z) :
  m !! b = Some l →
  (9 ≤ length l)%nat →
  matrix_sum m (b, 0) = Some (Int.wrap (sumZ (take 9 l))).
Proof.
  intros Hb Hlen. unfold matrix_sum.
  apply (for_loop_wp
    (λ i sum, sum = Int.wrap (sumZ (take (Z.to_nat (3 * i)) l)))).
  - lia.
  - simpl. symmetry. apply wrap_0.
  - intros i t Hi ->.
    apply (for_loop_wp
      (λ j sum, sum = Int.wrap (sumZ (take (Z.to_nat (3 * i + j)) l)))).
    + lia.
    + rewrite Z.add_0_r. reflexivity.
    + intros j u Hj ->.
      rewrite (load_matrix_block _ _ _ _ _ Hb) by lia.
      destruct (lookup_lt_is_Some_2 l (Z.to_nat (3 * i + j))) as [x Hx]; [lia|].
      rewrite Hx. simpl. eexists. split; [reflexivity|].
      rewrite (sum_prefix_step _ _ _ Hx).
      replace (Z.to_nat (3 * i + (j + 1)))
        with (S (Z.to_nat (3 * i + j))) by lia.
      reflexivity.
    + intros sum ->. eexists. split; [reflexivity|].
      replace (3 * (i + 1)) with (3 * i + 3) by lia. reflexivity.
  - intros sum ->. reflexivity.
Qed.

(** X6: [matrix_sum] returns the [int] sum of the nine cells that follow
    its argument, the exact sum whenever that is an [int]; the order of
    the cells does not matter, so a matrix and its transpose have the same
    sum. *)
Theorem matrix_sum_sum (m : gmap block (list Z)) (b : block) (l : list Z) :
  m !! b = Some l →
  (9 ≤ length l)%nat →
  matrix_sum m (b, 0) = Some (Int.wrap (sumZ (take 9 l)))
  ∧ (Int.is_int (sumZ (take 9 l)) →
       matrix_sum m (b, 0) = Some (sumZ (take 9 l)))
  ∧ (∀ (m2 : gmap block (list Z)) (b2 : block) (l2 : list Z),
       m2 !! b2 = Some l2 → take 9 l2 ≡ₚ take 9 l →
       matrix_sum m2 (b2, 0) = matrix_sum m (b, 0)).
Proof.
  intros Hb Hlen. rewrite (matrix_sum_take m b l Hb Hlen).
  split; [reflexivity|]. split.
  - intros Hfits. rewrite wrap_id by exact Hfits. reflexivity.
  - intros m2 b2 l2 Hb2 Hperm.
    rewrite (matrix_sum_take m2 b2 l2 Hb2).
    + rewrite (sumZ_perm _ _ Hperm). reflexivity.
    + apply Permutation_length in Hperm. rewrite !length_take in Hperm. lia.
Qed.

Lemma matrix_sum_sum_witness :
  matrix_sum (<[0%nat := [1; 2; 3; 4; 5; 6; 7; 8; 9]]> ∅) (0%nat, 0)
    = Some (Int.wrap (sumZ (take 9 [1; 2; 3; 4; 5; 6; 7; 8; 9])))
  ∧ (Int.is_int (sumZ (take 9 [1; 2; 3; 4; 5; 6; 7; 8; 9])) →
       matrix_sum (<[0%nat := [1; 2; 3; 4; 5; 6; 7; 8; 9]]> ∅) (0%nat, 0)
         = Some (sumZ (take 9 [1; 2; 3; 4; 5; 6; 7; 8; 9])))
  ∧ (∀ (m2 : gmap block (list Z)) (b2 : block) (l2 : list Z),
       m2 !! b2 = Some l2 → take 9 l2 ≡ₚ take 9 [1; 2; 3; 4; 5; 6; 7; 8; 9] →
       matrix_sum m2 (b2, 0)
         = matrix_sum (<[0%nat := [1; 2; 3; 4; 5; 6; 7; 8; 9]]> ∅) (0%nat, 0)).
Proof.
  apply (matrix_sum_sum (<[0%nat := [1; 2; 3; 4; 5; 6; 7; 8; 9]]> ∅) 0%nat
           [1; 2; 3; 4; 5; 6; 7; 8; 9]).
  - reflexivity.
  - simpl. lia.
Defined.

Lemma matrix_sum_past_end (m : gmap block (list Z)) (b : block)
    (l : list Z) :
  m !! b = Some l →
  (length l < 9)%nat →
  matrix_sum m (b, 0) = None.
Proof.
  intros Hb Hlen. unfold matrix_sum.
  set (len := Z.of_nat (length l)).
  pose proof (Z.div_mod len 3 ltac:(lia)) as Hdiv.
  pose proof (Z.mod_pos_bound len 3 ltac:(lia)) as Hmod.
  set (i0 := len / 3) in *. set (j0 := len mod 3) in *.
  assert (Hlen' : 0 ≤ len < 9) by (unfold len; lia).
  apply (for_loop_fault (λ _ _, True) _ 0 i0); [lia | exact I | |].
  - intros i t Hi _.
    apply (for_loop_wp (λ _ _, True));
      [lia | exact I | | intros s' _; eauto].
    intros j u Hj _.
    rewrite (load_matrix_block _ _ _ _ _ Hb) by lia.
    destruct (lookup_lt_is_Some_2 l (Z.to_nat (3 * i + j))) as [x ->];
      [unfold len in *; lia|].
    simpl. eauto.
  - intros t _.
    apply (for_loop_fault (λ _ _, True) _ 0 j0); [lia | exact I | |].
    + intros j u Hj _.
      rewrite (load_matrix_block _ _ _ _ _ Hb) by lia.
      destruct (lookup_lt_is_Some_2 l (Z.to_nat (3 * i0 + j))) as [x ->];
        [unfold len in *; lia|].
      simpl. eauto.
    + intros u _.
      rewrite (load_matrix_block _ _ _ _ _ Hb) by lia.
      rewrite lookup_ge_None_2 by (unfold len in *; lia). reflexivity.
Qed.

(** X7: on a block of fewer than nine cells [matrix_sum] faults: it reads
    the cells in row-major order and the first missing one is out of
    range. *)
Theorem matrix_sum_short (m : gmap block (list Z)) (b : block) (l : list Z) :
  m !! b = Some l →
  (length l < 9)%nat →
  matrix_sum m (b, 0) = None.
Proof. apply matrix_sum_past_end. Qed.

Lemma matrix_sum_short_witness :
  matrix_sum (<[0%nat := [1; 2; 3; 4; 5; 6; 7; 8]]> ∅) (0%nat, 0) = None.
Proof.
  apply (matrix_sum_short (<[0%nat := [1; 2; 3; 4; 5; 6; 7; 8]]> ∅) 0%nat
           [1; 2; 3; 4; 5; 6; 7; 8]).
  - reflexivity.
  - simpl. lia.
Defined.

(** ** bubble_sort, further *)

(** X8: for [n] of 2 or more, [bubble_sort] on an array [l] faults exactly
    when [n] exceeds the length of the array: the first pass then compares
    the last element with the cell behind it. *)
Theorem bubble_sort_faults_iff (m : gmap block (list Z)) (b : block)
    (l : list Z) (n : Z) :
  m !! b = Some l →
  Int.is_int n →
  2 ≤ n →
  bubble_sort m (b, 0) n = None ↔ Z.of_nat (length l) < n.
Proof.
  intros Hb Hfit Hn. split.
  - intros Hnone. destruct (decide (Z.of_nat (length l) < n)); [assumption|].
    destruct (bubble_sort_array m b l Hb n Hfit) as (l' & Hrun & _); [lia|].
    rewrite Hrun in Hnone. discriminate.
  - intros Hlen. unfold bubble_sort.
    assert (Hsub1 : Int.sub n 1 = n - 1).
    { apply wrap_id. unfold Int.is_int, Int.INT_MIN, Int.INT_MAX in *. lia. }
    assert (Hsub0 : Int.sub n 0 = n).
    { unfold Int.sub. rewrite Z.sub_0_r. apply wrap_id, Hfit. }
    rewrite Hsub1. rewrite for_loop_step by lia.
    rewrite Hsub0, Hsub1.
    rewrite <- (insert_id m b l Hb) at 1.
    rewrite inner_loop_overrun; [reflexivity | lia | | lia].
    unfold Int.is_int, Int.INT_MIN, Int.INT_MAX in *. lia.
Qed.

Lemma bubble_sort_faults_iff_witness :
  bubble_sort (<[0%nat := [3; 1; 2]]> ∅) (0%nat, 0) 4 = None
  ↔ Z.of_nat (length [3; 1; 2]) < 4.
Proof.
  apply (bubble_sort_faults_iff (<[0%nat := [3; 1; 2]]> ∅) 0%nat [3; 1; 2] 4).
  - reflexivity.
  - apply is_int_literal; vm_compute; discriminate.
  - lia.
Defined.

(** X9: for [n] of 1 or less, [INT_MIN] apart, [bubble_sort] makes no
    access at all: it returns the memory as it is for every pointer, also
    one into no block or past the end of one. *)
Theorem bubble_sort_no_access (m : gmap block (list Z)) (arr : ptr) (n : Z) :
  Int.INT_MIN < n →
  n ≤ 1 →
  bubble_sort m arr n = Some m.
Proof.
  intros Hmin Hn. unfold bubble_sort.
  assert (Hsub : Int.sub n 1 = n - 1).
  { apply wrap_id. unfold Int.is_int, Int.INT_MIN, Int.INT_MAX in *. lia. }
  rewrite Hsub. apply for_loop_done. lia.
Qed.

Lemma bubble_sort_no_access_witness :
  bubble_sort ∅ (7%nat, -3) 1 = Some ∅.
Proof.
  apply (bubble_sort_no_access ∅ (7%nat, -3) 1).
  - vm_compute. reflexivity.
  - lia.
Defined.

(** X10: sorting an array of three elements leaves [max_of_three] of them
    in the last cell. *)
Theorem bubble_sort_last_is_max (m : gmap block (list Z)) (b : block)
    (x y z : Z) :
  m !! b = Some [x; y; z] →
  ∃ m', bubble_sort m (b, 0) 3 = Some m'
        ∧ load m' (b, 2) = Some (max_of_three x y z).
Proof.
  intros Hb.
  destruct (bubble_sort_whole m b [x; y; z] Hb 3)
    as (l' & Hrun & Hsorted & Hperm); [| reflexivity |].
  { apply is_int_literal; vm_compute; discriminate. }
  exists (<[b := l']> m). split; [exact Hrun|].
  pose proof (Permutation_length Hperm) as Hlen.
  destruct l' as [|p [|q [|r [|? ?]]]]; simpl in Hlen; try discriminate.
  unfold load. simpl. rewrite lookup_insert_eq. simpl. f_equal.
  apply Sorted_StronglySorted in Hsorted; [| apply _].
  apply StronglySorted_cons in Hsorted as [Hp Hsorted].
  apply StronglySorted_cons in Hsorted as [Hq _].
  apply Forall_cons in Hp as [Hpq Hp]. apply Forall_cons in Hp as [Hpr _].
  apply Forall_cons in Hq as [Hqr _].
  assert (Hr : r ∈ [x; y; z]) by (rewrite <- Hperm; repeat constructor).
  assert (Hx : x ∈ [p; q; r]) by (rewrite Hperm; repeat constructor).
  assert (Hy : y ∈ [p; q; r]) by (rewrite Hperm; repeat constructor).
  assert (Hz : z ∈ [p; q; r]) by (rewrite Hperm; repeat constructor).
  unfold max_of_three. cbv zeta.
  repeat match goal with
         | |- context [decide (?u > ?v)] =>
             is_var u; is_var v; destruct (decide (u > v))
         end;
    set_unfold; lia.
Qed.

Lemma bubble_sort_last_is_max_witness :
  ∃ m', bubble_sort (<[0%nat := [3; 7; 2]]> ∅) (0%nat, 0) 3 = Some m'
        ∧ load m' (0%nat, 2) = Some (max_of_three 3 7 2).
Proof.
  apply (bubble_sort_last_is_max (<[0%nat := [3; 7; 2]]> ∅) 0%nat 3 7 2).
  reflexivity.
Defined.

(** ** swap, further *)

Section swap_facts.
Implicit Types (m : gmap block (list Z)) (p q a b : ptr).

Lemma store_loads m p v m' :
  store m p v = Some m' →
  load m' p = Some v
  ∧ (∀ q, q ≠ p → load m' q = load m q)
  ∧ (∀ blk : block, length <$> (m' !! blk) = length <$> (m !! blk)).
Proof.
  unfold store. intros Hst.
  destruct (m !! p.1) as [cells|] eqn:Hb; [simpl in Hst | discriminate].
  destruct (decide (0 ≤ p.2 < Z.of_nat (length cells))) as [Hr|];
    [| discriminate].
  injection Hst as <-. split; [| split].
  - apply load_insert_eq; [exact Hr | reflexivity].
  - intros q Hq. apply load_insert_ne; [exact Hb | lia | exact Hq].
  - intros blk. destruct (decide (blk = p.1)) as [->|Hne].
    + rewrite lookup_insert_eq, Hb. simpl. rewrite length_insert. reflexivity.
    + rewrite lookup_insert_ne by congruence. reflexivity.
Qed.

Lemma store_is_Some m p v : is_Some (load m p) → is_Some (store m p v).
Proof.
  intros Hp. destruct (store_Some m p v Hp) as (cells & _ & ->). eauto.
Qed.

(** Memories with the same blocks, of the same lengths, that read the same
    everywhere are equal. *)
Lemma mem_ext m1 m2 :
  (∀ blk : block, length <$> (m1 !! blk) = length <$> (m2 !! blk)) →
  (∀ p, load m1 p = load m2 p) →
  m1 = m2.
Proof.
  intros Hshape Hload. apply map_eq. intros blk.
  specialize (Hshape blk).
  destruct (m1 !! blk) as [c1|] eqn:H1, (m2 !! blk) as [c2|] eqn:H2;
    simpl in Hshape; try discriminate; [| reflexivity].
  f_equal. apply list_eq. intros i.
  specialize (Hload (blk, Z.of_nat i)). unfold load in Hload. simpl in Hload.
  rewrite H1, H2 in Hload. simpl in Hload.
  rewrite !decide_True, !Nat2Z.id in Hload by lia. exact Hload.
Qed.

(** What [swap] leaves, aliasing included. *)
Lemma swap_loads m a b m' :
  swap m a b = Some m' →
  load m' a = load m b
  ∧ load m' b = load m a
  ∧ (∀ p, p ≠ a → p ≠ b → load m' p = load m p)
  ∧ (∀ blk : block, length <$> (m' !! blk) = length <$> (m !! blk))
  ∧ is_Some (load m a) ∧ is_Some (load m b).
Proof.
  unfold swap. intros Hswap.
  destruct (load m a) as [va|] eqn:Ha; [simpl in Hswap | discriminate].
  destruct (load m b) as [vb|] eqn:Hb; [simpl in Hswap | discriminate].
  destruct (store m a vb) as [m1|] eqn:Hst1; [simpl in Hswap | discriminate].
  destruct (store_loads _ _ _ _ Hst1) as (Ha1 & Hne1 & Hsh1).
  destruct (store_loads _ _ _ _ Hswap) as (Hb2 & Hne2 & Hsh2).
  split; [| split; [exact Hb2 | split; [| split; [| eauto]]]].
  - destruct (decide (a = b)) as [->|Hab].
    + rewrite Hb2. congruence.
    + rewrite (Hne2 a Hab). exact Ha1.
  - intros p Hpa Hpb. rewrite (Hne2 p Hpb). apply Hne1, Hpa.
  - intros blk. rewrite Hsh2. apply Hsh1.
Qed.

Lemma swap_is_Some m a b :
  is_Some (load m a) → is_Some (load m b) → is_Some (swap m a b).
Proof.
  intros [va Ha] [vb Hb]. unfold swap. rewrite Ha, Hb. simpl.
  destruct (store_is_Some m a vb) as [m1 Hst1]; [eauto|].
  rewrite Hst1. simpl. apply store_is_Some.
  destruct (store_loads _ _ _ _ Hst1) as (Ha1 & Hne1 & _).
  destruct (decide (b = a)) as [->|Hne]; [eauto|].
  rewrite (Hne1 b Hne). eauto.
Qed.

End swap_facts.

(** X11: [swap] succeeds exactly when both pointers are valid, and it
    neither creates, removes nor resizes a block. *)
Theorem swap_defined_iff (m : gmap block (list Z)) (a b : ptr) :
  (is_Some (swap m a b) ↔ is_Some (load m a) ∧ is_Some (load m b))
  ∧ (∀ m', swap m a b = Some m' →
       ∀ blk : block, length <$> (m' !! blk) = length <$> (m !! blk)).
Proof.
  split; [split|].
  - intros [m' Hswap]. apply swap_loads in Hswap. tauto.
  - intros [Ha Hb]. apply swap_is_Some; assumption.
  - intros m' Hswap. apply swap_loads in Hswap. tauto.
Qed.

(** X12: [swap] undoes itself, and the order of its two arguments does not
    matter; both also when the two pointers are the same. *)
Theorem swap_involutive (m m' : gmap block (list Z)) (a b : ptr) :
  swap m a b = Some m' →
  swap m' a b = Some m ∧ swap m b a = Some m'.
Proof.
  intros Hswap.
  destruct (swap_loads _ _ _ _ Hswap) as (Ha & Hb & Hne & Hsh & Hva & Hvb).
  split.
  - destruct (swap_is_Some m' a b) as [m2 Hback];
      [rewrite Ha; exact Hvb | rewrite Hb; exact Hva |].
    destruct (swap_loads _ _ _ _ Hback) as (Ha2 & Hb2 & Hne2 & Hsh2 & _).
    rewrite Hback. f_equal. apply mem_ext.
    + intros blk. rewrite Hsh2. apply Hsh.
    + intros p. destruct (decide (p = a)) as [->|Hpa].
      { rewrite Ha2. exact Hb. }
      destruct (decide (p = b)) as [->|Hpb].
      { rewrite Hb2. exact Ha. }
      rewrite (Hne2 p Hpa Hpb). apply Hne; assumption.
  - destruct (swap_is_Some m b a Hvb Hva) as [m2 Hrev].
    destruct (swap_loads _ _ _ _ Hrev) as (Hb2 & Ha2 & Hne2 & Hsh2 & _).
    rewrite Hrev. f_equal. apply mem_ext.
    + intros blk. rewrite Hsh2, Hsh. reflexivity.
    + intros p. destruct (decide (p = a)) as [->|Hpa].
      { rewrite Ha2, Ha. reflexivity. }
      destruct (decide (p = b)) as [->|Hpb].
      { rewrite Hb2, Hb. reflexivity. }
      rewrite (Hne2 p Hpb Hpa), (Hne p Hpa Hpb). reflexivity.
Qed.

Lemma swap_involutive_witness :
  swap (<[0%nat := [4; 2; 5]]> (<[1%nat := [8]]> ∅)) (0%nat, 0) (1%nat, 0)
    = Some (<[0%nat := [8; 2; 5]]> (<[1%nat := [4]]> ∅))
  ∧ swap (<[0%nat := [8; 2; 5]]> (<[1%nat := [4]]> ∅)) (1%nat, 0) (0%nat, 0)
    = Some (<[0%nat := [4; 2; 5]]> (<[1%nat := [8]]> ∅)).
Proof.
  apply (swap_involutive (<[0%nat := [8; 2; 5]]> (<[1%nat := [4]]> ∅))
           (<[0%nat := [4; 2; 5]]> (<[1%nat := [8]]> ∅))
           (0%nat, 0) (1%nat, 0)).
  vm_compute. reflexivity.
Defined.

(** ** string_length, further *)

(** Whatever the loop returns is the index of a terminator with none
    between the start of the loop and it. *)
Lemma string_length_loop_sound (m : gmap block (list Z)) (b : block)
    (cells : list Z) (fuel : nat) (len v : Z) :
  m !! b = Some cells →
  0 ≤ len ≤ Int.INT_MAX →
  string_length_loop fuel m (b, 0) len = Done v →
  len ≤ v ≤ Int.INT_MAX
  ∧ cells !! Z.to_nat v = Some 0
  ∧ ∀ k, len ≤ k < v → cells !! Z.to_nat k ≠ Some 0.
Proof.
  intros Hb. revert len.
  induction fuel as [|fuel IH]; intros len Hlen; [discriminate|].
  rewrite string_length_loop_S, (load_block _ _ _ _ Hb) by lia.
  destruct (cells !! Z.to_nat len) as [c|] eqn:Hc; [| discriminate].
  destruct (decide (c ≠ 0)) as [Hnz|Hz].
  - destruct (decide (len < Int.INT_MAX)) as [Hlt|Hmax].
    + unfold Int.add. rewrite wrap_id
        by (unfold Int.is_int, Int.INT_MIN, Int.INT_MAX in *; lia).
      intros Hrun. apply IH in Hrun as (Hv & Hterm & Hbefore); [| lia].
      split; [lia|]. split; [exact Hterm|].
      intros k Hk. destruct (decide (k = len)) as [->|Hne].
      * rewrite Hc. congruence.
      * apply Hbefore. lia.
    + replace len with Int.INT_MAX by lia.
      unfold Int.add. rewrite wrap_max_succ.
      destruct fuel as [|fuel']; [discriminate|].
      rewrite string_length_loop_S, load_negative; [discriminate|].
      unfold Int.INT_MIN. simpl. lia.
  - intros [= <-]. split; [lia|]. split; [| intros k Hk; lia].
    rewrite Hc. f_equal. destruct (decide (c = 0)); [assumption | contradiction].
Qed.

(** On a block that an [int] can index, the counter never overflows: a
    read that succeeds is at an index below [INT_MAX]. *)
Lemma string_length_loop_in_block (m : gmap block (list Z)) (b : block)
    (cells : list Z) (fuel : nat) (len v : Z) :
  m !! b = Some cells →
  Z.of_nat (length cells) ≤ Int.INT_MAX →
  0 ≤ len →
  string_length_loop fuel m (b, 0) len = Done v →
  len ≤ v < Z.of_nat (length cells)
  ∧ cells !! Z.to_nat v = Some 0
  ∧ ∀ k, len ≤ k < v → cells !! Z.to_nat k ≠ Some 0.
Proof.
  intros Hb Hfit. revert len.
  induction fuel as [|fuel IH]; intros len Hlen; [discriminate|].
  rewrite string_length_loop_S, (load_block _ _ _ _ Hb) by lia.
  destruct (cells !! Z.to_nat len) as [c|] eqn:Hc; [| discriminate].
  pose proof (lookup_lt_Some _ _ _ Hc) as Hin.
  destruct (decide (c ≠ 0)) as [Hnz|Hz].
  - unfold Int.add. rewrite wrap_id
      by (unfold Int.is_int, Int.INT_MIN, Int.INT_MAX in *; lia).
    intros Hrun. apply IH in Hrun as (Hv & Hterm & Hbefore); [| lia].
    split; [lia|]. split; [exact Hterm|].
    intros k Hk. destruct (decide (k = len)) as [->|Hne].
    + rewrite Hc. congruence.
    + apply Hbefore. lia.
  - intros [= <-]. split; [lia|]. split; [| intros k Hk; lia].
    rewrite Hc. f_equal. destruct (decide (c = 0)); [assumption | contradiction].
Qed.

(** X13: on a block of at most [INT_MAX] cells, where [len++] cannot
    overflow, whatever [string_length] returns is right: an index into the
    block at which there is a terminator, with no terminator before it. *)
Theorem string_length_sound (m : gmap block (list Z)) (b : block)
    (cells : list Z) (fuel : nat) (v : Z) :
  m !! b = Some cells →
  Z.of_nat (length cells) ≤ Int.INT_MAX →
  string_length fuel m (b, 0) = Done v →
  0 ≤ v < Z.of_nat (length cells)
  ∧ cells !! Z.to_nat v = Some 0
  ∧ ∀ k : nat, (k < Z.to_nat v)%nat → cells !! k ≠ Some 0.
Proof.
  unfold string_length. intros Hb Hfit Hrun.
  destruct (string_length_loop_in_block m b cells fuel 0 v Hb Hfit) as
    (Hv & Hterm & Hbefore); [lia | exact Hrun |].
  split; [lia|]. split; [exact Hterm|].
  intros k Hk. rewrite <- (Nat2Z.id k). apply Hbefore. lia.
Qed.

Lemma string_length_sound_witness :
  0 ≤ 2 < Z.of_nat (length [104; 105; 0; 33; 0])
  ∧ [104; 105; 0; 33; 0] !! Z.to_nat 2 = Some 0
  ∧ ∀ k : nat, (k < Z.to_nat 2)%nat → [104; 105; 0; 33; 0] !! k ≠ Some 0.
Proof.
  apply (string_length_sound (<[0%nat := [104; 105; 0; 33; 0]]> ∅) 0%nat
           [104; 105; 0; 33; 0] 5 2).
  - reflexivity.
  - vm_compute. discriminate.
  - vm_compute. reflexivity.
Defined.

(** X14: on a block that holds no terminator [string_length] never
    returns a length; given fuel for one iteration more than the block
    has cells, it ends in an out-of-range read. *)
Theorem string_length_unterminated (m : gmap block (list Z)) (b : block)
    (cells : list Z) :
  m !! b = Some cells →
  0 ∉ cells →
  (∀ fuel v, string_length fuel m (b, 0) ≠ Done v)
  ∧ (∀ fuel, (length cells < fuel)%nat → string_length fuel m (b, 0) = Fault).
Proof.
  intros Hb Hnz. split.
  - intros fuel v Hrun. unfold string_length in Hrun.
    assert (Hstart : 0 ≤ 0 ≤ Int.INT_MAX) by (unfold Int.INT_MAX; lia).
    destruct (string_length_loop_sound m b cells fuel 0 v Hb Hstart Hrun)
      as (_ & Hterm & _).
    apply Hnz. eapply list_elem_of_lookup_2, Hterm.
  - intros fuel Hfuel.
    destruct (decide (Z.of_nat (length cells) ≤ Int.INT_MAX)) as [Hfit|Hlong].
    + unfold string_length.
      assert (Hsplit : ∃ fuel', fuel = (length cells + S fuel')%nat)
        by (exists (fuel - length cells - 1)%nat; lia).
      destruct Hsplit as [fuel' ->].
      change 0 with (Z.of_nat (length (@nil Z))) at 2.
      rewrite (string_length_loop_run m b cells [] []);
        [| rewrite app_nil_r; exact Hb | exact Hnz | simpl; lia].
      rewrite string_length_loop_S, (load_block _ _ _ _ Hb) by lia.
      rewrite lookup_ge_None_2 by (simpl; lia). reflexivity.
    + set (N := Z.to_nat (Int.INT_MAX + 1)).
      assert (HN : (N ≤ length cells)%nat) by (unfold N; lia).
      apply (string_length_wraps m b (take N cells) (drop N cells)).
      * rewrite take_drop. exact Hb.
      * intros Hin. apply Hnz. apply (subseteq_take N cells), Hin.
      * rewrite length_take. unfold N, Int.INT_MAX in *. lia.
      * rewrite length_take. lia.
Qed.

Lemma string_length_unterminated_witness :
  (∀ fuel v,
     string_length fuel (<[0%nat := [104; 105]]> ∅) (0%nat, 0) ≠ Done v)
  ∧ (∀ fuel, (length [104; 105] < fuel)%nat →
       string_length fuel (<[0%nat := [104; 105]]> ∅) (0%nat, 0) = Fault).
Proof.
  apply (string_length_unterminated (<[0%nat := [104; 105]]> ∅) 0%nat
           [104; 105]).
  - reflexivity.
  - intros Hin. apply list_elem_of_In in Hin. simpl in Hin.
    destruct Hin as [H|[H|H]]; [discriminate H | discriminate H | exact H].
Defined.

(** ** fibonacci, further *)

Lemma fib_pair_bounds (k : nat) : 0 ≤ (fib_pair k).1 ≤ (fib_pair k).2.
Proof.
  induction k as [|k IH]; simpl; [lia|]. cbv zeta. simpl. lia.
Qed.

Lemma fib_pair_mono (j k : nat) :
  (j ≤ k)%nat → (fib_pair j).1 ≤ (fib_pair k).1.
Proof.
  induction 1 as [|k Hle IH]; [lia|].
  pose proof (fib_pair_bounds k). simpl. cbv zeta. simpl. lia.
Qed.

(** X15: on the non-negative [int]s, [fibonacci n] is the [n]-th Fibonacci
    number wrapped to 32 bits; up to [n = 46] it is that number itself,
    and so non-negative and non-decreasing in [n].  [fib_pair] is the
    Fibonacci sequence: 0, 1, and from there on the sum of the two
    previous numbers. *)
Theorem fibonacci_exact (n : Z) :
  Int.is_int n →
  0 ≤ n →
  fibonacci n = Int.wrap (fib_pair (Z.to_nat n)).1
  ∧ (n ≤ 46 →
       fibonacci n = (fib_pair (Z.to_nat n)).1
       ∧ 0 ≤ fibonacci n
       ∧ fibonacci n ≤ fibonacci 46)
  ∧ (fib_pair 0).1 = 0 ∧ (fib_pair 1).1 = 1
  ∧ (∀ k, (fib_pair (S (S k))).1 = (fib_pair (S k)).1 + (fib_pair k).1).
Proof.
  intros Hfit Hn.
  assert (Hwrap : fibonacci n = Int.wrap (fib_pair (Z.to_nat n)).1).
  { destruct (decide (n = 0)) as [->|Hpos]; [vm_compute; reflexivity|].
    destruct (fibonacci_fib_pair (Z.to_nat (n - 1))) as [_ Hnext].
    { unfold Int.is_int, Int.INT_MAX in *. lia. }
    replace (Z.of_nat (Z.to_nat (n - 1)) + 1) with n in Hnext by lia.
    rewrite Hnext. replace (Z.to_nat n) with (S (Z.to_nat (n - 1))) by lia.
    reflexivity. }
  assert (H46 : (fib_pair 46).1 = 1836311903) by (vm_compute; reflexivity).
  assert (Hf46 : fibonacci 46 = 1836311903).
  { destruct (fibonacci_fib_pair 46) as [Hf _]; [vm_compute; reflexivity|].
    change (Z.of_nat 46) with 46 in Hf. rewrite Hf. vm_compute. reflexivity. }
  split; [exact Hwrap|]. split; [| split; [reflexivity | split; [reflexivity|]]].
  - intros Hsmall.
    pose proof (fib_pair_bounds (Z.to_nat n)) as Hpos.
    pose proof (fib_pair_mono (Z.to_nat n) 46 ltac:(lia)) as Hle.
    rewrite H46 in Hle.
    assert (Hexact : fibonacci n = (fib_pair (Z.to_nat n)).1).
    { rewrite Hwrap. apply wrap_id.
      unfold Int.is_int, Int.INT_MIN, Int.INT_MAX. lia. }
    rewrite Hf46, Hexact. lia.
  - intros k. simpl. cbv zeta. simpl. lia.
Qed.

Lemma fibonacci_exact_witness :
  fibonacci 30 = Int.wrap (fib_pair (Z.to_nat 30)).1
  ∧ (30 ≤ 46 →
       fibonacci 30 = (fib_pair (Z.to_nat 30)).1
       ∧ 0 ≤ fibonacci 30
       ∧ fibonacci 30 ≤ fibonacci 46)
  ∧ (fib_pair 0).1 = 0 ∧ (fib_pair 1).1 = 1
  ∧ (∀ k, (fib_pair (S (S k))).1 = (fib_pair (S k)).1 + (fib_pair k).1).
Proof.
  apply (fibonacci_exact 30).
  - apply is_int_literal; vm_compute; discriminate.
  - lia.
Defined.

(** X16: [matrix_sum] on a pointer is [sum_array] on the same pointer with
    a length of 9, for every memory: the same [int] sum when the block has
    nine cells or more, the same fault when it has fewer or is missing. *)
Theorem matrix_sum_is_sum_array (m : gmap block (list Z)) (b : block) :
  matrix_sum m (b, 0) = sum_array m (b, 0) 9.
Proof.
  destruct (m !! b) as [l|] eqn:Hb.
  - destruct (decide (9 ≤ length l)%nat) as [Hlen|Hshort].
    + rewrite (matrix_sum_take m b l Hb Hlen).
      rewrite (sum_array_wrap m b l 9 Hb) by lia. reflexivity.
    + rewrite (matrix_sum_past_end m b l Hb) by lia.
      rewrite (sum_array_past_end m b l 9 Hb) by lia. reflexivity.
  - unfold matrix_sum, sum_array.
    rewrite !(for_loop_step _ 0) by lia.
    unfold load_matrix, load. simpl. rewrite Hb. reflexivity.
Qed.

(** ** string_length at an offset *)



